(** * asyncio_redis: RESP decoder, protocol engine and connection pool

    Shallow embedding of [src/asyncio_redis/__init__.py]:
    - [RedisProtocol.data_received], [_line_received] and the reply
      handlers (the incremental RESP decoder);
    - the reply queue ([_queue]), [_push_answer], [_handle_multi_bulk_reply],
      [_send_command], [_query], [_get_answer], [connection_lost];
    - the transaction code ([multi], [_exec], [_discard]);
    - [Connection._get_free_protocol] and [Connection.__getattr__].

    Python [bytes] are [list byte]; a decoded Python [str] is kept as the
    list of its UTF-8 bytes (the decoder checks that they are valid, as
    [bytes.decode] does). Futures live in a store [gmap nat fstate]; a
    coroutine suspended on a future is modelled by a "resume" function
    that runs the code after the [yield from] once the future is done. *)

From Stdlib Require Import ZArith Lia Strings.Byte.
From Stdlib Require Import Strings.String.
From stdpp Require Import base list gmap.
Import ListNotations.
Open Scope Z_scope.

(* ------------------------------------------------------------------ *)
(** ** Bytes *)

Definition bytes := list byte.

(** [b"..."] written as a Rocq string (no escapes). *)
Definition b (s : String.string) : bytes := String.list_byte_of_string s.
Arguments b s%_string_scope.

Definition crlf : bytes := [x0d; x0a].

Definition byte_is (c : byte) (n : nat) : bool := Nat.eqb (Byte.to_nat c) n.

(** [buf.split(b'\r\n', 1)] when [b'\r\n' in buf]: the part before the
    first CRLF and the part after it; [None] when [buf] holds no CRLF
    (the [while] condition of [data_received] is false). *)
Fixpoint split_crlf (buf : bytes) : option (bytes * bytes) :=
  match buf with
  | [] => None
  | c :: rest =>
      match rest with
      | d :: rest' =>
          if byte_is c 13 && byte_is d 10 then Some ([], rest')
          else match split_crlf rest with
               | Some (l, r) => Some (c :: l, r)
               | None => None
               end
      | [] => None
      end
  end.

(* ------------------------------------------------------------------ *)
(** ** Python built-ins used by the decoder *)

(** [int(line)] on bytes: surrounding ASCII whitespace, an optional sign,
    decimal digits with single underscores between digits; anything else
    raises [ValueError] ([None]). *)
Definition is_space (c : byte) : bool :=
  let n := Byte.to_nat c in
  Nat.eqb n 32 || ((9 <=? n)%nat && (n <=? 13)%nat).

Definition is_digit (c : byte) : bool :=
  let n := Byte.to_nat c in (48 <=? n)%nat && (n <=? 57)%nat.

Fixpoint strip_left (l : bytes) : bytes :=
  match l with
  | c :: t => if is_space c then strip_left t else l
  | [] => []
  end.

Definition strip (l : bytes) : bytes := rev (strip_left (rev (strip_left l))).

(** Digits with optional single underscores between them, read from the
    left into the accumulator [acc]; [prev_digit] says whether the last
    character read was a digit. *)
Fixpoint parse_digits (l : bytes) (acc : Z) (prev_digit : bool) : option Z :=
  match l with
  | [] => if prev_digit then Some acc else None
  | c :: t =>
      if is_digit c then
        parse_digits t (acc * 10 + Z.of_nat (Byte.to_nat c - 48)) true
      else if byte_is c 95 && prev_digit then
        match t with
        | [] => None
        | _ => parse_digits t acc false
        end
      else None
  end.

Definition py_int (line : bytes) : option Z :=
  match strip line with
  | c :: t =>
      if byte_is c 45 then option_map Z.opp (parse_digits t 0 false)
      else if byte_is c 43 then parse_digits t 0 false
      else parse_digits (c :: t) 0 false
  | [] => None
  end.

(** [bytes.decode('ascii')] succeeds iff every byte is below 128. *)
Definition ascii_ok (l : bytes) : bool :=
  forallb (fun c => (Byte.to_nat c <? 128)%nat) l.

Definition in_range (c : byte) (lo hi : nat) : bool :=
  (lo <=? Byte.to_nat c)%nat && (Byte.to_nat c <=? hi)%nat.

Definition cont (c : byte) : bool := in_range c 128 191.

(** [bytes.decode('utf-8')] (strict) succeeds iff the bytes are well-formed
    UTF-8 (Unicode Table 3-7: no overlong forms, no surrogates, nothing
    above U+10FFFF). *)
Fixpoint utf8_ok (l : bytes) : bool :=
  match l with
  | [] => true
  | c :: t =>
      let n := Byte.to_nat c in
      if (n <? 128)%nat then utf8_ok t
      else if in_range c 194 223 then
        match t with c1 :: t' => cont c1 && utf8_ok t' | _ => false end
      else if in_range c 224 239 then
        match t with
        | c1 :: c2 :: t' =>
            (if Nat.eqb n 224 then in_range c1 160 191
             else if Nat.eqb n 237 then in_range c1 128 159
             else cont c1) && cont c2 && utf8_ok t'
        | _ => false
        end
      else if in_range c 240 244 then
        match t with
        | c1 :: c2 :: c3 :: t' =>
            (if Nat.eqb n 240 then in_range c1 144 191
             else if Nat.eqb n 244 then in_range c1 128 143
             else cont c1) && cont c2 && cont c3 && utf8_ok t'
        | _ => false
        end
      else false
  end.

(** [buf[:n]], with Python's reading of a negative [n]. *)
Definition py_slice_to (buf : bytes) (n : Z) : bytes :=
  if 0 <=? n then firstn (Z.to_nat n) buf
  else firstn (Z.to_nat (Z.of_nat (length buf) + n)) buf.

(* ------------------------------------------------------------------ *)
(** ** The decoder *)

(** What a reply handler hands to [_push_answer] (or, for [*], to the
    multi-bulk code). Text is the decoded [str], kept as its bytes. *)
Inductive event :=
  | EStatus (s : bytes)          (* _handle_status_reply *)
  | EError (s : bytes)           (* _handle_error_reply *)
  | EInt (z : Z)                 (* _handle_int_reply *)
  | EBulk (s : bytes)            (* _handle_bulk_reply_part *)
  | ENone                        (* _handle_bulk_reply with -1 *)
  | EMulti (count : Z).          (* _handle_multi_bulk_reply *)

(** Exceptions the decoder can raise out of [data_received]. *)
Inductive perr := ValueError | UnicodeDecodeError.

(** Input parser state besides [_buffer]. *)
Record pstate := {
  in_bulk_reply : bool;
  bulk_reply_len : Z;
  bulk_reply_buffer : bytes
}.

Definition pstate0 : pstate :=
  {| in_bulk_reply := false; bulk_reply_len := 0; bulk_reply_buffer := [] |}.

Definition handle_bulk_reply (p : pstate) (line : bytes)
  : perr + (pstate * list event) :=
  match py_int line with
  | None => inl ValueError
  | Some n =>
      if n =? -1 then inr (p, [ENone])
      else inr ({| in_bulk_reply := true; bulk_reply_len := n;
                   bulk_reply_buffer := [] |}, [])
  end.

Definition handle_bulk_reply_part (p : pstate) (line : bytes)
  : perr + (pstate * list event) :=
  let buf := bulk_reply_buffer p ++ line ++ crlf in
  if Z.of_nat (length buf) >? bulk_reply_len p then
    let v := py_slice_to buf (bulk_reply_len p) in
    if utf8_ok v then inr (pstate0, [EBulk v]) else inl UnicodeDecodeError
  else inr ({| in_bulk_reply := in_bulk_reply p;
               bulk_reply_len := bulk_reply_len p;
               bulk_reply_buffer := buf |}, []).

(** [_line_received]: dispatch on the first byte; an unknown first byte
    (or an empty line) is only printed. *)
Definition line_received (p : pstate) (line : bytes)
  : perr + (pstate * list event) :=
  match line with
  | [] => inr (p, [])
  | c :: rest =>
      if byte_is c 43 then            (* + *)
        if ascii_ok rest then inr (p, [EStatus rest]) else inl UnicodeDecodeError
      else if byte_is c 45 then       (* - *)
        inr (p, [EError rest])
      else if byte_is c 36 then       (* $ *)
        handle_bulk_reply p rest
      else if byte_is c 42 then       (* * *)
        match py_int rest with
        | Some n => inr (p, [EMulti n])
        | None => inl ValueError
        end
      else if byte_is c 58 then       (* : *)
        match py_int rest with
        | Some n => inr (p, [EInt n])
        | None => inl ValueError
        end
      else inr (p, [])                (* print ('err...', line) *)
  end.

(** Outcome of feeding bytes: the new parser state and buffer with the
    events emitted, or an exception raised after some events. *)
Inductive dres :=
  | DOk (p : pstate) (buf : bytes) (evs : list event)
  | DErr (e : perr) (evs : list event).

Definition dres_prepend (evs : list event) (r : dres) : dres :=
  match r with
  | DOk p buf evs' => DOk p buf (evs ++ evs')
  | DErr e evs' => DErr e (evs ++ evs')
  end.

(** The replies emitted by a decoding outcome, error or not. *)
Definition dres_events (r : dres) : list event :=
  match r with DOk _ _ evs => evs | DErr _ evs => evs end.

(** One line, as [data_received] hands it on: to the bulk body while a
    bulk reply is in progress, else to [_line_received]. *)
Definition decode_line (p : pstate) (line : bytes)
  : perr + (pstate * list event) :=
  if in_bulk_reply p then handle_bulk_reply_part p line
  else line_received p line.

(** The [while b'\r\n' in self._buffer] loop; every round removes at
    least two bytes, so [S (length buf)] rounds are enough. *)
Fixpoint drain (fuel : nat) (p : pstate) (buf : bytes) : dres :=
  match fuel with
  | O => DOk p buf []
  | S fuel' =>
      match split_crlf buf with
      | None => DOk p buf []
      | Some (line, rest) =>
          match decode_line p line with
          | inl e => DErr e []
          | inr (p', evs) => dres_prepend evs (drain fuel' p' rest)
          end
      end
  end.

(** [data_received]: [self._buffer += data], then the loop. *)
Definition data_received (p : pstate) (buf data : bytes) : dres :=
  drain (S (length (buf ++ data))) p (buf ++ data).

(** Successive [data_received] calls, one per chunk; an exception out of
    [data_received] is fatal for the transport, so later chunks are not
    delivered. *)
Fixpoint feed (p : pstate) (buf : bytes) (chunks : list bytes) : dres :=
  match chunks with
  | [] => DOk p buf []
  | c :: cs =>
      match data_received p buf c with
      | DOk p' buf' evs => dres_prepend evs (feed p' buf' cs)
      | DErr e evs => DErr e evs
      end
  end.


(* ------------------------------------------------------------------ *)
(** ** Objects held by futures, exceptions, calls *)

(** Results a future of the engine can hold. [VMulti count items] is a
    [MultiBulkReply(count)]; [items] are the futures created with it, whose
    results the [handle_results] task copies, in order, into the reply's
    queue. *)
Inductive value :=
  | VStatus (s : bytes)                 (* StatusReply(status) *)
  | VInt (z : Z)                        (* int *)
  | VStr (s : bytes)                    (* str *)
  | VNone                               (* None *)
  | VMulti (count : Z) (items : list nat).

(** The exceptions raised by the modelled code. *)
Inductive exn :=
  | ReplyError (line : bytes)  (* RedisException(line) for a '-' reply *)
  | ConnectionLostError        (* RedisException('Connection lost: %s') *)
  | NotQueuedError             (* RedisException('Expected to receive QUEUED ...') *)
  | NotInTransactionError      (* RedisException('Not in transaction') *)
  | TransactionFailedError     (* RedisException('Transaction failed.') *)
  | PoolInUseError             (* RedisException('All connection in the pool are in use. ...') *)
  | NotFromTransactionError    (* RedisException('Cannot run command inside transaction') *)
  | AttributeError
  | TypeError
  | AssertionError
  | IndexError                 (* popleft from an empty deque *)
  | KeyError                   (* set.remove of an absent element *)
  | InvalidStateError          (* set_result / set_exception on a done future *)
  | DecodeError (e : perr).    (* raised by the decoder inside data_received *)

Inductive fstate := Pending | Done (v : value) | Failed (e : exn).

(** [PipelinedCall(cmd, is_blocking)]; [call_id] stands for the object's
    identity in the [_pipelined_calls] set. *)
Record call := { call_id : nat; call_cmd : bytes; call_blocking : bool }.

(** The [_PostProcessor] functions a command may pass. *)
Inductive postproc :=
  | multibulk_as_list | multibulk_as_set | int_to_bool
  | multibulk_as_zrangeresult | str_to_float.

(** An entry [(f, post_process_func, call)] of
    [_transaction_response_queue]. *)
Definition tentry : Type := (nat * option postproc * call)%type.

(** The attributes of a [RedisProtocol] instance that the claims read. *)
Record engine := mkEngine {
  queue : list nat;                (* _queue: deque of futures *)
  futs : gmap nat fstate;          (* every future created so far *)
  next_id : nat;                   (* identity of the next Future() / PipelinedCall *)
  pipelined_calls : list call;     (* _pipelined_calls *)
  in_pubsub : bool;                (* _in_pubsub *)
  in_transaction : bool;           (* _in_transaction *)
  trq : option (list tentry);      (* _transaction_response_queue (None or a deque) *)
  written : bytes;                 (* everything passed to transport.write *)
  dec : pstate;                    (* input parser state *)
  buffer : bytes;                  (* _buffer *)
  pubsub_replies : list value      (* replies handed to _handle_pubsub_multibulk_reply *)
}.

Definition set_queue q st := mkEngine q (futs st) (next_id st) (pipelined_calls st)
  (in_pubsub st) (in_transaction st) (trq st) (written st) (dec st) (buffer st) (pubsub_replies st).
Definition set_futs m st := mkEngine (queue st) m (next_id st) (pipelined_calls st)
  (in_pubsub st) (in_transaction st) (trq st) (written st) (dec st) (buffer st) (pubsub_replies st).
Definition set_next_id n st := mkEngine (queue st) (futs st) n (pipelined_calls st)
  (in_pubsub st) (in_transaction st) (trq st) (written st) (dec st) (buffer st) (pubsub_replies st).
Definition set_calls cs st := mkEngine (queue st) (futs st) (next_id st) cs
  (in_pubsub st) (in_transaction st) (trq st) (written st) (dec st) (buffer st) (pubsub_replies st).
Definition set_in_transaction t st := mkEngine (queue st) (futs st) (next_id st) (pipelined_calls st)
  (in_pubsub st) t (trq st) (written st) (dec st) (buffer st) (pubsub_replies st).
Definition set_trq q st := mkEngine (queue st) (futs st) (next_id st) (pipelined_calls st)
  (in_pubsub st) (in_transaction st) q (written st) (dec st) (buffer st) (pubsub_replies st).
Definition set_written w st := mkEngine (queue st) (futs st) (next_id st) (pipelined_calls st)
  (in_pubsub st) (in_transaction st) (trq st) w (dec st) (buffer st) (pubsub_replies st).
Definition set_dec p st := mkEngine (queue st) (futs st) (next_id st) (pipelined_calls st)
  (in_pubsub st) (in_transaction st) (trq st) (written st) p (buffer st) (pubsub_replies st).
Definition set_buffer bf st := mkEngine (queue st) (futs st) (next_id st) (pipelined_calls st)
  (in_pubsub st) (in_transaction st) (trq st) (written st) (dec st) bf (pubsub_replies st).
Definition set_pubsub_replies l st := mkEngine (queue st) (futs st) (next_id st) (pipelined_calls st)
  (in_pubsub st) (in_transaction st) (trq st) (written st) (dec st) (buffer st) l.

(* ------------------------------------------------------------------ *)
(** ** A state and exception monad for the engine's methods *)

(** A method runs on the engine and either returns or raises; what it
    mutated before raising stays mutated, as in Python. *)
Definition M (A : Type) : Type := engine -> (exn + A) * engine.

Definition ret {A} (a : A) : M A := fun st => (inr a, st).
Definition raise {A} (e : exn) : M A := fun st => (inl e, st).
Definition bind {A B} (m : M A) (k : A -> M B) : M B :=
  fun st => match m st with
            | (inl e, st') => (inl e, st')
            | (inr a, st') => k a st'
            end.
Definition gets {A} (f : engine -> A) : M A := fun st => (inr (f st), st).
Definition modify (f : engine -> engine) : M unit := fun st => (inr tt, f st).

Notation "x <- m ;; k" := (bind m (fun x => k))
  (at level 95, m at level 94, right associativity).
Notation "m ;;; k" := (bind m (fun _ => k))
  (at level 95, right associativity).

(* ------------------------------------------------------------------ *)
(** ** Futures and the reply queue *)

(** [Future()] *)
Definition new_future : M nat :=
  n <- gets next_id ;;
  modify (fun st => set_next_id (S n) (set_futs (<[n := Pending]> (futs st)) st)) ;;;
  ret n.

(** [f.set_result(v)] / [f.set_exception(e)]: a done future raises. *)
Definition settle (f : nat) (r : fstate) : M unit :=
  m <- gets futs ;;
  match m !! f with
  | Some Pending => modify (set_futs (<[f := r]> m))
  | _ => raise InvalidStateError
  end.

(** [_push_answer(answer)]: pop the head future and complete it. *)
Definition push_answer (answer : fstate) : M unit :=
  q <- gets queue ;;
  match q with
  | [] => raise IndexError
  | f :: q' => modify (set_queue q') ;;; settle f answer
  end.

(** [Future() for f in range(count)] *)
Fixpoint new_futures (k : nat) : M (list nat) :=
  match k with
  | O => ret []
  | S k' => f <- new_future ;; fs <- new_futures k' ;; ret (f :: fs)
  end.

(** [_handle_multi_bulk_reply]. The reply's items are the futures created
    just after it (their identities are [next_id], [next_id + 1], ...);
    [for f in futures[::-1]: self._queue.appendleft(f)] leaves them, in
    order, at the head of the queue. *)
Definition handle_multi_bulk_reply (count : Z) : M unit :=
  n <- gets next_id ;;
  let reply := VMulti count (seq n (Z.to_nat count)) in
  ps <- gets in_pubsub ;;
  (if ps then modify (fun st => set_pubsub_replies (pubsub_replies st ++ [reply]) st)
   else push_answer (Done reply)) ;;;
  fs <- new_futures (Z.to_nat count) ;;
  modify (fun st => set_queue (fs ++ queue st) st).

(** What the reply handlers do with a decoded reply. *)
Definition dispatch (ev : event) : M unit :=
  match ev with
  | EStatus s => push_answer (Done (VStatus s))
  | EError s => push_answer (Failed (ReplyError s))
  | EInt z => push_answer (Done (VInt z))
  | EBulk s => push_answer (Done (VStr s))
  | ENone => push_answer (Done VNone)
  | EMulti n => handle_multi_bulk_reply n
  end.

Fixpoint dispatch_all (evs : list event) : M unit :=
  match evs with
  | [] => ret tt
  | ev :: evs' => dispatch ev ;;; dispatch_all evs'
  end.

(** The [data_received] loop on the engine: split a line off the buffer,
    decode it, hand the replies to the handlers, repeat. *)
Fixpoint engine_drain (fuel : nat) : M unit :=
  match fuel with
  | O => ret tt
  | S fuel' =>
      bf <- gets buffer ;;
      match split_crlf bf with
      | None => ret tt
      | Some (line, rest) =>
          modify (set_buffer rest) ;;;
          p <- gets dec ;;
          match decode_line p line with
          | inl e => raise (DecodeError e)
          | inr (p', evs) =>
              modify (set_dec p') ;;; dispatch_all evs ;;; engine_drain fuel'
          end
      end
  end.

Definition engine_data_received (data : bytes) : M unit :=
  modify (fun st => set_buffer (buffer st ++ data) st) ;;;
  bf <- gets buffer ;;
  engine_drain (S (length bf)).

(** [connection_lost]: fail every future left in [_queue]. *)
Fixpoint fail_queue (fuel : nat) : M unit :=
  match fuel with
  | O => ret tt
  | S fuel' =>
      q <- gets queue ;;
      match q with
      | [] => ret tt
      | f :: q' =>
          modify (set_queue q') ;;; settle f (Failed ConnectionLostError) ;;;
          fail_queue fuel'
      end
  end.

Definition connection_lost : M unit :=
  q <- gets queue ;;
  fail_queue (length q).

(* ------------------------------------------------------------------ *)
(** ** Sending commands *)

Definition digit_byte (d : nat) : byte :=
  match Byte.of_nat (48 + d) with Some c => c | None => x30 end.

Fixpoint decimal_rev (fuel n : nat) : bytes :=
  match fuel with
  | O => []
  | S fuel' =>
      digit_byte (n mod 10)
        :: (if (n <? 10)%nat then [] else decimal_rev fuel' (n / 10))
  end.

(** ['%i' % n] for [n >= 0]. *)
Definition decimal (n : nat) : bytes := rev (decimal_rev (S n) n).

Fixpoint bytes_eqb (x y : bytes) : bool :=
  match x, y with
  | [], [] => true
  | c :: x', d :: y' => Byte.eqb c d && bytes_eqb x' y'
  | _, _ => false
  end.

(** [self.transport.write(data)] *)
Definition write (data : bytes) : M unit :=
  modify (fun st => set_written (written st ++ data) st).

Fixpoint write_args (args : list bytes) : M unit :=
  match args with
  | [] => ret tt
  | a :: args' =>
      write (b"$" ++ decimal (length a) ++ crlf) ;;; write a ;;; write crlf ;;;
      write_args args'
  end.

(** [_send_command( *args)]; every argument is already [bytes] here, the
    command methods encode them first. *)
Definition send_command (args : list bytes) : M unit :=
  write (b"*" ++ decimal (length args) ++ crlf) ;;; write_args args.

(** The bytes [_send_command] writes for [args], in one piece. *)
Definition request_bytes (args : list bytes) : bytes :=
  b"*" ++ decimal (length args) ++ crlf ++
  concat (map (fun a => b"$" ++ decimal (length a) ++ crlf ++ a ++ crlf) args).

(** [PipelinedCall(cmd, is_blocking)] *)
Definition new_call (cmd : bytes) (blocking : bool) : M call :=
  n <- gets next_id ;;
  modify (set_next_id (S n)) ;;;
  ret {| call_id := n; call_cmd := cmd; call_blocking := blocking |}.

(** [_query( *args, set_blocking=...)] up to the [yield from f] of
    [_get_answer]: record the call, send the request, append a fresh
    future to [_queue]. Returns that future and the call. *)
Definition query (args : list bytes) (blocking : bool) : M (nat * call) :=
  match args with
  | [] => raise IndexError
  | cmd :: _ =>
      c <- new_call cmd blocking ;;
      modify (fun st => set_calls (pipelined_calls st ++ [c]) st) ;;;
      send_command args ;;;
      f <- new_future ;;
      modify (fun st => set_queue (queue st ++ [f]) st) ;;;
      ret (f, c)
  end.

(** [self._pipelined_calls.remove(call)] *)
Definition remove_call (c : call) : M unit :=
  cs <- gets pipelined_calls ;;
  if existsb (fun c' => Nat.eqb (call_id c') (call_id c)) cs
  then modify (set_calls (filter (fun c' => negb (Nat.eqb (call_id c') (call_id c))) cs))
  else raise KeyError.

(** [result != StatusReply(s)]: [StatusReply] only defines [__eq__],
    which reads [other.status]; for any other object Python falls back on
    the reflected [StatusReply.__ne__], which raises [AttributeError]. *)
Definition py_ne_status (v : value) (s : bytes) : exn + bool :=
  match v with
  | VStatus s' => inr (negb (bytes_eqb s' s))
  | _ => inl AttributeError
  end.

(** [result == StatusReply(s)], same reasoning. *)
Definition py_eq_status (v : value) (s : bytes) : exn + bool :=
  match v with
  | VStatus s' => inr (bytes_eqb s' s)
  | _ => inl AttributeError
  end.

(** Where [_get_answer] stands after its future is done. *)
Inductive ga :=
  | GAWaiting                          (* the future is still pending *)
  | GAReturn (v : value)               (* return result *)
  | GAFuture (f : nat)                 (* in a transaction: the detached future *)
  | GAPostProcess (p : postproc) (v : value). (* now runs post_process_func(result) *)

(** The rest of [_get_answer(_bypass, post_process_func, call)] once
    [result = yield from f] can go on. *)
Definition get_answer_resume (bypass : bool) (pp : option postproc) (c : call)
  (f : nat) : M ga :=
  m <- gets futs ;;
  match m !! f with
  | Some (Done v) =>
      t <- gets in_transaction ;;
      if t && negb bypass then
        match py_ne_status v (b"QUEUED") with
        | inl e => raise e
        | inr true => raise NotQueuedError
        | inr false =>
            f2 <- new_future ;;
            q <- gets trq ;;
            match q with
            | None => raise AttributeError
            | Some l => modify (set_trq (Some (l ++ [(f2, pp, c)]))) ;;; ret (GAFuture f2)
            end
        end
      else
        match pp with
        | Some p => ret (GAPostProcess p v)
        | None => remove_call c ;;; ret (GAReturn v)
        end
  | Some (Failed e) => raise e
  | _ => ret GAWaiting
  end.

(** The end of [_get_answer] once [post_process_func] returned [r]. *)
Definition get_answer_finish (c : call) (r : value) : M value :=
  remove_call c ;;; ret r.

(** A [_query] followed by the server's reply bytes and the rest of
    [_get_answer] (without post-processor). *)
Definition run_query (args : list bytes) (blocking bypass : bool) (reply : bytes)
  : M ga :=
  fc <- query args blocking ;;
  engine_data_received reply ;;;
  get_answer_resume bypass None (snd fc) (fst fc).

(** The [_command] wrapper called directly on the protocol: inside a
    transaction it raises. *)
Definition command_guard : M unit :=
  t <- gets in_transaction ;;
  if t then raise NotFromTransactionError else ret tt.

(** [set(key, value)], called on the protocol; [_encode] of a [str] is
    its UTF-8 bytes, which is how text is kept here. *)
Definition redis_set (key val : bytes) : M (nat * call) :=
  command_guard ;;; query [b"set"; key; val] false.

(** [set(key, value)] with the server's reply, up to the value the
    caller's [yield from] gets. *)
Definition set_scenario (key val reply : bytes) : M ga :=
  fc <- redis_set key val ;;
  engine_data_received reply ;;;
  get_answer_resume false None (snd fc) (fst fc).

(* ------------------------------------------------------------------ *)
(** ** Transactions *)

(** The [i]-th [queue.get()] of a multi-bulk reply returns once the
    [handle_results] task has copied item [i]: every one of the first
    [i + 1] futures is done with a result (a failed one ends that task,
    so later items never arrive). *)
Definition handle_item (m : gmap nat fstate) (items : list nat) (i : nat)
  : option value :=
  if forallb (fun f => match m !! f with Some (Done _) => true | _ => false end)
       (firstn (S i) items)
  then match items !! i with
       | Some f => match m !! f with Some (Done v) => Some v | _ => None end
       | None => None
       end
  else None.

Inductive exec_out :=
  | ExecDone
  | ExecWaiting (i : nat)        (* waiting for item [i] of EXEC's reply *)
  | ExecPostProcess (i : nat).   (* runs the post-processor of entry [i] *)

(** [_exec] up to [yield from self._query(b'exec', _bypass=True)]:
    returns EXEC's future and call and the saved transaction queue. *)
Definition exec_start : M (nat * call * option (list tentry)) :=
  t <- gets in_transaction ;;
  if negb t then raise NotInTransactionError else
  saved <- gets trq ;;
  modify (set_trq None) ;;;
  fc <- query [b"exec"] false ;;
  ret (fst fc, snd fc, saved).

(** The [for f in multi_bulk_reply] loop of [_exec], from item [i] on;
    [k] iterations are left. *)
Fixpoint exec_loop (k : nat) (items : list nat) (i : nat)
  (saved : option (list tentry)) : M exec_out :=
  match k with
  | O => ret ExecDone
  | S k' =>
      m <- gets futs ;;
      match handle_item m items i with
      | None => ret (ExecWaiting i)
      | Some answer =>
          match saved with
          | None => raise AttributeError
          | Some [] => raise IndexError
          | Some ((f2, pp, c) :: rest) =>
              match pp with
              | Some _ => ret (ExecPostProcess i)
              | None =>
                  remove_call c ;;; settle f2 (Done answer) ;;;
                  exec_loop k' items (S i) (Some rest)
              end
          end
      end
  end.

(** The rest of [_exec] once the EXEC query returned [v]. *)
Definition exec_after (v : value) (saved : option (list tentry)) : M exec_out :=
  match v with
  | VNone => raise TransactionFailedError
  | VMulti count items =>
      o <- exec_loop (Z.to_nat count) items 0 saved ;;
      match o with
      | ExecDone =>
          modify (set_trq (Some [])) ;;; modify (set_in_transaction false) ;;;
          ret ExecDone
      | o' => ret o'
      end
  | _ => raise TypeError   (* a non-iterable reply *)
  end.

(** [transaction.exec()] with the server's reply to EXEC. *)
Definition exec_scenario (reply : bytes) : M (option exec_out) :=
  x <- exec_start ;;
  let '(f, c, saved) := x in
  engine_data_received reply ;;;
  g <- get_answer_resume true None c f ;;
  match g with
  | GAReturn v => o <- exec_after v saved ;; ret (Some o)
  | _ => ret None
  end.

(** [_discard] up to the [yield from self._query(b'discard')]. *)
Definition discard_start : M (nat * call) :=
  t <- gets in_transaction ;;
  if negb t then raise NotInTransactionError else
  modify (set_trq (Some [])) ;;;
  modify (set_in_transaction false) ;;;
  query [b"discard"] false.

(** [assert result == StatusReply('OK')] *)
Definition discard_finish (v : value) : M unit :=
  match py_eq_status v (b"OK") with
  | inl e => raise e
  | inr true => ret tt
  | inr false => raise AssertionError
  end.

(** [transaction.discard()] with the server's reply to DISCARD. *)
Definition discard_scenario (reply : bytes) : M bool :=
  fc <- discard_start ;;
  engine_data_received reply ;;;
  g <- get_answer_resume false None (snd fc) (fst fc) ;;
  match g with
  | GAReturn v => discard_finish v ;;; ret true
  | _ => ret false
  end.

(* ------------------------------------------------------------------ *)
(** ** The connection pool *)

Definition in_blocking_call (e : engine) : bool :=
  existsb call_blocking (pipelined_calls e).

Definition in_use (e : engine) : bool :=
  in_blocking_call e || in_pubsub e || in_transaction e.

(** [Connection._shuffle_protocols]: [l[1:] + l[:1]]. The pool's
    [(transport, protocol)] pairs are kept as their protocols. *)
Definition shuffle_protocols (l : list engine) : list engine :=
  skipn 1 l ++ firstn 1 l.

(** [Connection._get_free_protocol]: the new pool list and the first
    protocol not in use ([None] when there is none). *)
Definition get_free_protocol (l : list engine) : list engine * option engine :=
  let l' := shuffle_protocols l in
  (l', List.find (fun p => negb (in_use p)) l').

(** [Connection.__getattr__(name)]; [is_command] is [name in _all_commands]. *)
Definition pool_getattr (is_command : bool) (l : list engine)
  : list engine * (exn + engine) :=
  if negb is_command then (l, inl AttributeError)
  else
    let (l', r) := get_free_protocol l in
    (l', match r with Some p => inr p | None => inl PoolInUseError end).

(** What [_push_answer] hands to the head future for a decoded reply
    ([n] is the identity of the first child future of a multi-bulk). *)
Definition reply_fstate (ev : event) (n : nat) : fstate :=
  match ev with
  | EStatus s => Done (VStatus s)
  | EError s => Failed (ReplyError s)
  | EInt z => Done (VInt z)
  | EBulk s => Done (VStr s)
  | ENone => Done VNone
  | EMulti c => Done (VMulti c (seq n (Z.to_nat c)))
  end.

(** How many child futures a decoded reply pushes at the head of [_queue]. *)
Definition multi_children (ev : event) : nat :=
  match ev with EMulti c => Z.to_nat c | _ => 0%nat end.

Definition flat (ev : event) : bool :=
  match ev with EMulti _ => false | _ => true end.

(** A complete reply frame as the decoder emits it: a leaf (a reply that
    pushes no child future: status, error, integer, bulk, nil bulk, or a
    multi-bulk header with count <= 0) or a multi-bulk header [*N]
    followed by its [N] item frames. Used to state what the handlers do
    with nested multi-bulk replies. *)
Inductive frame :=
  | FLeaf (ev : event)
  | FMulti (items : list frame).

(** The replies the decoder emits for a frame, in wire order. *)
Fixpoint frame_events (fr : frame) : list event :=
  match fr with
  | FLeaf ev => [ev]
  | FMulti items => EMulti (Z.of_nat (length items)) :: concat (map frame_events items)
  end.

(** Leaves push no child future. *)
Fixpoint frame_ok (fr : frame) : bool :=
  match fr with
  | FLeaf ev => Nat.eqb (multi_children ev) 0
  | FMulti items => forallb frame_ok items
  end.

(** [R x g] for the [i]-th item [x] and the future [g + i]. *)
Fixpoint items_resolved (R : frame -> nat -> Prop) (items : list frame) (g : nat) : Prop :=
  match items with
  | [] => True
  | x :: items' => R x g /\ items_resolved R items' (S g)
  end.

(** Future [f] holds the answer to frame [fr] in the future map [m]: a
    leaf's reply, or, for a multi-bulk, the [MultiBulkReply] whose item
    futures are [base, base+1, ...] (created in [lo, hi)) each holding
    the answer to the corresponding item frame. *)
Fixpoint frame_resolved (m : gmap nat fstate) (lo hi : nat) (fr : frame) (f : nat) : Prop :=
  match fr with
  | FLeaf ev => m !! f = Some (reply_fstate ev 0)
  | FMulti items =>
      exists base, (lo <= base)%nat /\ (base + length items <= hi)%nat /\
        m !! f = Some (Done (VMulti (Z.of_nat (length items)) (seq base (length items)))) /\
        items_resolved (frame_resolved m lo hi) items base
  end.

(* ------------------------------------------------------------------ *)
(** ** Engine states used in the statements below *)

(** The attributes as [connection_made] sets them (no AUTH, no SELECT). *)
Definition connection_made_state : engine :=
  mkEngine [] ∅ 0 [] false false None [] pstate0 [] [].

Definition call_set6 : call :=
  {| call_id := 6; call_cmd := b"set"; call_blocking := false |}.

(** An engine inside MULTI whose SET (call 6) was answered QUEUED: its
    detached future 7 waits in the transaction queue. *)
Definition engine_in_multi : engine :=
  mkEngine [] (<[7%nat := Pending]> ∅) 10 [call_set6] false true
    (Some [(7%nat, None, call_set6)]) [] pstate0 [] [].

(** An engine with one request (future 3) waiting for its reply. *)
Definition engine_one_pending : engine :=
  mkEngine [3%nat] (<[3%nat := Pending]> ∅) 4
    [{| call_id := 2; call_cmd := b"get"; call_blocking := false |}]
    false false None [] pstate0 [] [].

(** Inside MULTI as [engine_in_multi], with a second command (call 8,
    future 9) still waiting for its QUEUED. *)
Definition engine_multi_waiting : engine :=
  mkEngine [9%nat] (<[9%nat := Pending]> (<[7%nat := Pending]> ∅)) 10
    [call_set6; {| call_id := 8; call_cmd := b"incr"; call_blocking := false |}]
    false true (Some [(7%nat, None, call_set6)]) [] pstate0 [] [].


(* ------------------------------------------------------------------ *)
(** ** More of the protocol *)

(** [_encode_int(value)]: [str(value).encode('ascii')]. *)
Definition encode_int (z : Z) : bytes :=
  if z <? 0 then b"-" ++ decimal (Z.to_nat (- z)) else decimal (Z.to_nat z).

(** The reply that arrives next in a scenario; [b''] (nothing) once the
    list is used up. *)
Definition next_reply (replies : list bytes) : bytes * list bytes :=
  match replies with
  | [] => ([], [])
  | r :: rs => (r, rs)
  end.

(** The [for k in keys] loop of [multi]: [WATCH k], then
    [assert result == StatusReply('OK')], for every key in turn, each with
    the server's next reply. [None] when a reply has not (fully) arrived:
    the coroutine is still suspended. (No post-processor is passed and the
    engine is not in a transaction here, so [_get_answer] returns the
    reply itself.) *)
Fixpoint watch_keys (keys : list bytes) (replies : list bytes)
  : M (option (list bytes)) :=
  match keys with
  | [] => ret (Some replies)
  | k :: ks =>
      let '(r, rs) := next_reply replies in
      g <- run_query [b"watch"; k] false false r ;;
      match g with
      | GAReturn v => discard_finish v ;;; watch_keys ks rs
      | _ => ret None
      end
  end.

(** [multi(keys)] called on the protocol, with the server's replies (one
    per WATCH, then MULTI's); [true] once it returned the [Transaction].
    Its own [if self._in_transaction: raise ...('Multi calls can not be
    nested.')] cannot fire on this path: the [_command] wrapper has
    already raised for a call on the protocol inside a transaction. *)
Definition multi_scenario (keys : option (list bytes)) (replies : list bytes)
  : M bool :=
  command_guard ;;;
  o <- match keys with
       | None => ret (Some replies)
       | Some ks => watch_keys ks replies
       end ;;
  match o with
  | None => ret false
  | Some rs =>
      let '(r, _) := next_reply rs in
      g <- run_query [b"multi"] false false r ;;
      match g with
      | GAReturn v =>
          discard_finish v ;;;
          modify (set_in_transaction true) ;;;
          modify (set_trq (Some [])) ;;;
          ret true
      | _ => ret false
      end
  end.

(** [_unwatch()] with the server's reply to UNWATCH. [_query] is called
    without [_bypass], so inside the transaction [_get_answer] returns the
    detached future; [future == StatusReply('OK')] then falls back on the
    reflected [StatusReply.__eq__], which reads [future.status] and raises
    [AttributeError]. *)
Definition unwatch_scenario (reply : bytes) : M bool :=
  t <- gets in_transaction ;;
  if negb t then raise NotInTransactionError else
  fc <- query [b"unwatch"] false ;;
  engine_data_received reply ;;;
  g <- get_answer_resume false None (snd fc) (fst fc) ;;
  match g with
  | GAReturn v => discard_finish v ;;; ret true
  | GAFuture _ => raise AttributeError
  | _ => ret false
  end.

(** [Connection.connections_in_use] *)
Definition connections_in_use (l : list engine) : nat :=
  length (filter (fun p => in_use p) l).

(** Two pipelined GETs (calls 2 and 4) waiting on futures 3 and 5. *)
Definition engine_two_pending : engine :=
  mkEngine [3%nat; 5%nat] (<[5%nat := Pending]> (<[3%nat := Pending]> ∅)) 6
    [{| call_id := 2; call_cmd := b"get"; call_blocking := false |};
     {| call_id := 4; call_cmd := b"get"; call_blocking := false |}]
    false false None [] pstate0 [] [].

(** A subscribed protocol whose SUBSCRIBE (call 2) still waits on future 3. *)
Definition engine_subscribed : engine :=
  mkEngine [3%nat] (<[3%nat := Pending]> ∅) 4
    [{| call_id := 2; call_cmd := b"subscribe"; call_blocking := false |}]
    true false None [] pstate0 [] [].

(** The parser state and buffer after [data_received]: the two fields
    [self._reader] keeps between calls. *)
Definition dec_buffer_update (p : pstate) (bf : bytes) (st : engine) : engine :=
  set_dec p (set_buffer bf st).

(* ------------------------------------------------------------------ *)
(** ** Proof helpers *)

(** The value of a run of decimal digits read after [acc]. *)
Definition digits_val (l : bytes) (acc : Z) : Z :=
  fold_left (fun a c => a * 10 + Z.of_nat (Byte.to_nat c - 48)) l acc.

(** An action that leaves the part [proj] of the engine as it was. *)
Definition keeps {A T} (proj : engine -> T) (m : M A) : Prop :=
  forall st, proj (snd (m st)) = proj st.

(** An action that commutes with the update [g] of the engine. *)
Definition commutes {A} (g : engine -> engine) (m : M A) : Prop :=
  forall st, m (g st) = (fst (m st), g (snd (m st))).

(** The attributes about calls and transactions, and what was written. *)
Definition call_state (st : engine) :=
  (pipelined_calls st, in_pubsub st, in_transaction st, trq st, written st).

(* ------------------------------------------------------------------ *)
(** ** Decoder lemmas *)

Lemma split_crlf_cons2 (c d : byte) (t : bytes) :
  split_crlf (c :: d :: t) =
  if byte_is c 13 && byte_is d 10 then Some ([], t)
  else match split_crlf (d :: t) with
       | Some (l, r) => Some (c :: l, r)
       | None => None
       end.
Proof. reflexivity. Qed.

Lemma split_crlf_app (x y l r : bytes) :
  split_crlf x = Some (l, r) -> split_crlf (x ++ y) = Some (l, r ++ y).
Proof.
  revert l r. induction x as [|c rest IH]; intros l r H; [discriminate|].
  destruct rest as [|d rest']; [discriminate|].
  change ((c :: d :: rest') ++ y) with (c :: d :: (rest' ++ y)).
  rewrite split_crlf_cons2 in H |- *.
  destruct (byte_is c 13 && byte_is d 10).
  - inversion H; subst. reflexivity.
  - destruct (split_crlf (d :: rest')) as [[l0 r0]|] eqn:E; [|discriminate].
    injection H as H1 H2; subst l r.
    change (d :: rest' ++ y) with ((d :: rest') ++ y).
    rewrite (IH l0 r0 eq_refl). reflexivity.
Qed.

Lemma split_crlf_length (x l r : bytes) :
  split_crlf x = Some (l, r) -> length x = (length l + 2 + length r)%nat.
Proof.
  revert l r. induction x as [|c rest IH]; intros l r H; [discriminate|].
  destruct rest as [|d rest']; [discriminate|].
  rewrite split_crlf_cons2 in H.
  destruct (byte_is c 13 && byte_is d 10).
  - inversion H; subst. simpl. lia.
  - destruct (split_crlf (d :: rest')) as [[l0 r0]|] eqn:E; [|discriminate].
    injection H as H1 H2; subst l r. specialize (IH l0 r0 eq_refl).
    cbn [length] in *. lia.
Qed.

Lemma dres_prepend_nil (r : dres) : dres_prepend [] r = r.
Proof. destruct r; reflexivity. Qed.

Lemma dres_prepend_app (a c : list event) (r : dres) :
  dres_prepend a (dres_prepend c r) = dres_prepend (a ++ c) r.
Proof. destruct r; simpl; by rewrite app_assoc. Qed.

Lemma drain_S (n : nat) (p : pstate) (buf : bytes) :
  drain (S n) p buf =
  match split_crlf buf with
  | None => DOk p buf []
  | Some (line, rest) =>
      match decode_line p line with
      | inl e => DErr e []
      | inr (p', evs) => dres_prepend evs (drain n p' rest)
      end
  end.
Proof. reflexivity. Qed.

(** The number of rounds does not matter once it exceeds the buffer. *)
Lemma drain_fuel (n m : nat) (p : pstate) (buf : bytes) :
  (length buf < n)%nat -> (length buf < m)%nat -> drain n p buf = drain m p buf.
Proof.
  revert m p buf. induction n as [|n IH]; intros m p buf Hn Hm; [lia|].
  destruct m as [|m]; [lia|]. simpl.
  destruct (split_crlf buf) as [[line rest]|] eqn:E; [|reflexivity].
  pose proof (split_crlf_length _ _ _ E).
  destruct (decode_line p line) as [e|[p' evs]]; [reflexivity|].
  f_equal. apply IH; lia.
Qed.

(** What is left in the buffer is a suffix of it. *)
Lemma drain_rest_length (n : nat) (p p' : pstate) (buf r : bytes)
  (evs : list event) :
  drain n p buf = DOk p' r evs -> (length r <= length buf)%nat.
Proof.
  revert p buf evs. induction n as [|n IH]; intros p buf evs H.
  - simpl in H. inversion H; subst. lia.
  - simpl in H.
    destruct (split_crlf buf) as [[line rest]|] eqn:E.
    + pose proof (split_crlf_length _ _ _ E).
      destruct (decode_line p line) as [e|[p1 evs1]]; [discriminate|].
      destruct (drain n p1 rest) as [p2 r2 evs2|] eqn:E2; [|discriminate].
      simpl in H. inversion H; subst.
      specialize (IH _ _ _ E2). lia.
    + inversion H; subst. lia.
Qed.

(** Feeding [buf ++ y] is feeding [buf], then feeding what is left of
    [buf] followed by [y]. *)
Lemma drain_app (n : nat) (p : pstate) (buf y : bytes) :
  (length (buf ++ y) < n)%nat ->
  drain n p (buf ++ y) =
  match drain n p buf with
  | DOk p' r evs => dres_prepend evs (drain n p' (r ++ y))
  | DErr e evs => DErr e evs
  end.
Proof.
  revert p buf. induction n as [|n IH]; intros p buf Hn; [lia|].
  rewrite length_app in Hn.
  rewrite (drain_S n p (buf ++ y)), (drain_S n p buf).
  destruct (split_crlf buf) as [[line rest]|] eqn:E.
  - rewrite (split_crlf_app _ _ _ _ E).
    pose proof (split_crlf_length _ _ _ E).
    destruct (decode_line p line) as [e|[p1 evs1]]; [reflexivity|].
    rewrite IH by (rewrite length_app; lia).
    destruct (drain n p1 rest) as [p2 r2 evs2|e2 evs2] eqn:E2;
      cbn [dres_prepend].
    + pose proof (drain_rest_length _ _ _ _ _ _ E2).
      rewrite dres_prepend_app.
      f_equal. apply drain_fuel; rewrite length_app; lia.
    + reflexivity.
  - rewrite dres_prepend_nil. reflexivity.
Qed.

Lemma data_received_app (p : pstate) (buf x y : bytes) :
  data_received p buf (x ++ y) =
  match data_received p buf x with
  | DOk p' r evs => dres_prepend evs (data_received p' r y)
  | DErr e evs => DErr e evs
  end.
Proof.
  unfold data_received.
  rewrite app_assoc, drain_app by lia.
  rewrite (drain_fuel (S (length ((buf ++ x) ++ y))) (S (length (buf ++ x))))
    by (rewrite ?length_app; lia).
  destruct (drain (S (length (buf ++ x))) p (buf ++ x)) as [p' r evs|e evs] eqn:E;
    [|reflexivity].
  rewrite <- (drain_fuel (S (length ((buf ++ x) ++ y))) (S (length (r ++ y))));
    [reflexivity| |lia].
  pose proof (drain_rest_length _ _ _ _ _ _ E).
  rewrite !length_app in *. lia.
Qed.

Lemma feed_single (p : pstate) (buf c : bytes) :
  feed p buf [c] = data_received p buf c.
Proof.
  simpl. destruct (data_received p buf c) as [p' r evs|e evs]; simpl;
    [by rewrite app_nil_r | reflexivity].
Qed.

Lemma feed_bytewise (a : byte) (bs : bytes) (p : pstate) (buf : bytes) :
  feed p buf (map (fun c => [c]) (a :: bs)) = data_received p buf (a :: bs).
Proof.
  revert a p buf. induction bs as [|a2 bs IH]; intros a p buf.
  - apply feed_single.
  - change (data_received p buf (a :: a2 :: bs))
      with (data_received p buf ([a] ++ a2 :: bs)).
    rewrite data_received_app.
    cbn [map feed].
    destruct (data_received p buf [a]) as [p' r evs|e evs]; [|reflexivity].
    rewrite <- IH. reflexivity.
Qed.

Example feed_ex1 :
  feed pstate0 [] [b "$5" ++ crlf ++ b "hel"; b "lo" ++ crlf ++ b ":4"; crlf]
  = DOk pstate0 [] [EBulk (b "hello"); EInt 4].
Proof. reflexivity. Qed.

(* ------------------------------------------------------------------ *)
(** ** Pool lemmas *)

Lemma In_shuffle_protocols (l : list engine) (p : engine) :
  In p (shuffle_protocols l) <-> In p l.
Proof.
  unfold shuffle_protocols. destruct l as [|e l]; simpl; [tauto|].
  rewrite skipn_O, in_app_iff. simpl. tauto.
Qed.

(* ------------------------------------------------------------------ *)
(** ** Engine lemmas *)

Ltac unfold_setters :=
  unfold set_queue, set_futs, set_next_id, set_calls, set_in_transaction,
    set_trq, set_written, set_dec, set_buffer, set_pubsub_replies in *.

Lemma bind_inr {A B} (m : M A) (k : A -> M B) (st st' : engine) (a : A) :
  m st = (inr a, st') -> bind m k st = k a st'.
Proof. unfold bind. by intros ->. Qed.

Lemma new_future_spec (st : engine) :
  new_future st =
  (inr (next_id st),
   set_next_id (S (next_id st)) (set_futs (<[next_id st := Pending]> (futs st)) st)).
Proof. reflexivity. Qed.

Lemma settle_pending (f : nat) (r : fstate) (st : engine) :
  futs st !! f = Some Pending ->
  settle f r st = (inr tt, set_futs (<[f := r]> (futs st)) st).
Proof. intros H. unfold settle, bind, gets. simpl. by rewrite H. Qed.

Lemma push_answer_spec (a : fstate) (st : engine) (f : nat) (q : list nat) :
  queue st = f :: q -> futs st !! f = Some Pending ->
  push_answer a st = (inr tt, set_futs (<[f := a]> (futs st)) (set_queue q st)).
Proof.
  intros Hq Hf. unfold push_answer, bind, gets. rewrite Hq.
  unfold modify. rewrite settle_pending; [reflexivity|exact Hf].
Qed.

Lemma new_futures_spec (k : nat) (st : engine) :
  exists m', new_futures k st =
    (inr (seq (next_id st) k), set_next_id (next_id st + k) (set_futs m' st)) /\
    forall g, m' !! g = if decide (next_id st <= g < next_id st + k)%nat
                        then Some Pending else futs st !! g.
Proof.
  revert st. induction k as [|k IH]; intros st.
  - exists (futs st). split.
    + destruct st; unfold_setters; cbn. by rewrite Nat.add_0_r.
    + intros g. case_decide; [lia|reflexivity].
  - simpl new_futures.
    erewrite bind_inr by apply new_future_spec.
    destruct (IH (set_next_id (S (next_id st))
                    (set_futs (<[next_id st:=Pending]> (futs st)) st)))
      as [m' [Hk Hm']].
    exists m'. erewrite bind_inr by exact Hk. split.
    + destruct st; unfold_setters; cbn. repeat f_equal. lia.
    + intros g. rewrite Hm'. unfold_setters. cbn [next_id futs].
      destruct (decide (S (next_id st) <= g < S (next_id st) + k)%nat) as [H1|H1];
      destruct (decide (next_id st <= g < next_id st + S k)%nat) as [H2|H2];
        try lia; [reflexivity| |].
      * assert (g = next_id st) as -> by lia. by rewrite lookup_insert_eq.
      * rewrite lookup_insert_ne by lia. reflexivity.
Qed.

Lemma dispatch_flat_spec (ev : event) (st : engine) (f : nat) (q : list nat) :
  flat ev = true -> queue st = f :: q -> futs st !! f = Some Pending ->
  dispatch ev st =
  (inr tt, set_futs (<[f := reply_fstate ev 0]> (futs st)) (set_queue q st)).
Proof.
  intros Hflat Hq Hf.
  destruct ev; try discriminate; simpl; by apply push_answer_spec.
Qed.

(** Flat replies complete the futures at the head of [_queue] in order. *)
Lemma dispatch_all_flat (evs : list event) (base : nat) (q : list nat)
  (st : engine) :
  queue st = seq base (length evs) ++ q ->
  (forall i, (i < length evs)%nat -> futs st !! (base + i)%nat = Some Pending) ->
  forallb flat evs = true ->
  exists m', dispatch_all evs st = (inr tt, set_queue q (set_futs m' st)) /\
    (forall i e, evs !! i = Some e -> m' !! (base + i)%nat = Some (reply_fstate e 0)) /\
    (forall g, ~ (base <= g < base + length evs)%nat -> m' !! g = futs st !! g).
Proof.
  revert base st. induction evs as [|e evs IH]; intros base st Hq Hp Hflat.
  - exists (futs st). split; [|split].
    + simpl in Hq. destruct st; unfold_setters; simpl in *; subst. reflexivity.
    + intros i e He. by rewrite lookup_nil in He.
    + reflexivity.
  - simpl in Hflat. apply andb_prop in Hflat as [Hfe Hflat].
    simpl. simpl in Hq.
    assert (Hb : futs st !! base = Some Pending).
    { rewrite <- (Nat.add_0_r base). apply Hp. simpl. lia. }
    erewrite bind_inr by (apply dispatch_flat_spec; eassumption).
    set (st1 := set_futs (<[base := reply_fstate e 0]> (futs st))
                  (set_queue (seq (S base) (length evs) ++ q) st)).
    destruct (IH (S base) st1) as [m' [Hd [Hr Ho]]]; [reflexivity| |exact Hflat|].
    { intros i Hi. unfold st1; unfold_setters; cbn [futs].
      rewrite lookup_insert_ne by lia.
      replace (S base + i)%nat with (base + S i)%nat by lia. apply Hp. simpl. lia. }
    exists m'. split; [|split].
    + rewrite Hd. unfold st1. destruct st; unfold_setters; reflexivity.
    + intros [|i] e' He.
      * simpl in He. injection He as <-. rewrite Nat.add_0_r, Ho by lia.
        unfold st1; unfold_setters; cbn [futs]. by rewrite lookup_insert_eq.
      * simpl in He. replace (base + S i)%nat with (S base + i)%nat by lia.
        by apply Hr.
    + intros g Hg. rewrite Ho by (simpl in Hg; lia).
      unfold st1; unfold_setters; cbn [futs].
      rewrite lookup_insert_ne by (simpl in Hg; lia). reflexivity.
Qed.


Lemma existsb_snoc {A} (f : A -> bool) (l : list A) (x : A) :
  f x = true -> existsb f (l ++ [x]) = true.
Proof. intros H. rewrite existsb_app. simpl. rewrite H. by rewrite orb_true_r. Qed.

Lemma split_crlf_line (x : bytes) :
  split_crlf x = None -> split_crlf (x ++ crlf) = Some (x, []).
Proof.
  induction x as [|c rest IH]; intros H; [reflexivity|].
  destruct rest as [|d r].
  - change ([c] ++ crlf) with (c :: x0d :: [x0a]). rewrite split_crlf_cons2.
    change (byte_is x0d 10) with false. by rewrite andb_false_r.
  - rewrite split_crlf_cons2 in H.
    destruct (byte_is c 13 && byte_is d 10) eqn:E; [discriminate|].
    destruct (split_crlf (d :: r)) as [[l0 r0]|] eqn:E2; [discriminate|].
    change ((c :: d :: r) ++ crlf) with (c :: d :: (r ++ crlf)).
    rewrite split_crlf_cons2, E. change (d :: r ++ crlf) with ((d :: r) ++ crlf).
    by rewrite IH.
Qed.

Lemma bind_gets {A B} (g : engine -> A) (k : A -> M B) (st : engine) :
  bind (gets g) k st = k (g st) st.
Proof. reflexivity. Qed.

Lemma bind_modify {B} (f : engine -> engine) (k : unit -> M B) (st : engine) :
  bind (modify f) k st = k tt (f st).
Proof. reflexivity. Qed.

Lemma engine_drain_S (n : nat) :
  engine_drain (S n) =
  (bf <- gets buffer ;;
   match split_crlf bf with
   | None => ret tt
   | Some (line, rest) =>
       modify (set_buffer rest) ;;;
       p <- gets dec ;;
       match decode_line p line with
       | inl e => raise (DecodeError e)
       | inr (p', evs) =>
           modify (set_dec p') ;;; dispatch_all evs ;;; engine_drain n
       end
   end).
Proof. reflexivity. Qed.

(** One complete line arriving on an empty buffer is decoded and its
    replies handed to the handlers. *)
Lemma engine_data_received_line (line : bytes) (p : pstate) (evs : list event)
  (st st1 : engine) :
  buffer st = [] -> split_crlf line = None ->
  decode_line (dec st) line = inr (p, evs) ->
  dispatch_all evs (set_dec p (set_buffer [] st)) = (inr tt, st1) ->
  buffer st1 = [] ->
  engine_data_received (line ++ crlf) st = (inr tt, st1).
Proof.
  intros Hb Hs Hd Hdisp Hb1.
  unfold engine_data_received. rewrite bind_modify, bind_gets.
  cbn [buffer set_buffer]. rewrite Hb, app_nil_l, length_app.
  replace (length line + length crlf)%nat with (S (S (length line))) by (cbn; lia).
  rewrite engine_drain_S, bind_gets. cbn [buffer set_buffer].
  rewrite (split_crlf_line line Hs), bind_modify, bind_gets. cbn [dec set_buffer].
  rewrite Hd, bind_modify. erewrite bind_inr; [|exact Hdisp].
  rewrite engine_drain_S, bind_gets, Hb1. reflexivity.
Qed.

Lemma write_args_spec (args : list bytes) (st : engine) :
  write_args args st =
  (inr tt, set_written (written st ++
     concat (map (fun a => b"$" ++ decimal (length a) ++ crlf ++ a ++ crlf) args)) st).
Proof.
  revert st. induction args as [|a args IH]; intros st.
  - destruct st; unfold_setters; cbn [written concat map]. by rewrite app_nil_r.
  - cbn [write_args]. unfold write. rewrite !bind_modify, IH.
    destruct st; unfold_setters; cbn [written concat map]. by rewrite <- !app_assoc.
Qed.

Lemma send_command_spec (args : list bytes) (st : engine) :
  send_command args st = (inr tt, set_written (written st ++ request_bytes args) st).
Proof.
  unfold send_command, write. rewrite bind_modify, write_args_spec.
  destruct st; unfold_setters; cbn [written]. unfold request_bytes.
  by rewrite <- !app_assoc.
Qed.

Lemma query_spec (cmd : bytes) (rest : list bytes) (blocking : bool) (st : engine) :
  query (cmd :: rest) blocking st =
  (inr (S (next_id st),
        {| call_id := next_id st; call_cmd := cmd; call_blocking := blocking |}),
   mkEngine (queue st ++ [S (next_id st)]) (<[S (next_id st) := Pending]> (futs st))
     (S (S (next_id st)))
     (pipelined_calls st ++
        [{| call_id := next_id st; call_cmd := cmd; call_blocking := blocking |}])
     (in_pubsub st) (in_transaction st) (trq st)
     (written st ++ request_bytes (cmd :: rest)) (dec st) (buffer st)
     (pubsub_replies st)).
Proof.
  unfold query, new_call. cbn [bind gets modify ret].
  erewrite bind_inr by apply send_command_spec.
  erewrite bind_inr by apply new_future_spec.
  destruct st. reflexivity.
Qed.

Lemma get_answer_resume_return (bypass : bool) (c : call) (f : nat) (v : value)
  (st : engine) :
  futs st !! f = Some (Done v) -> in_transaction st && negb bypass = false ->
  existsb (fun c' => Nat.eqb (call_id c') (call_id c)) (pipelined_calls st) = true ->
  get_answer_resume bypass None c f st =
  (inr (GAReturn v),
   set_calls (filter (fun c' => negb (Nat.eqb (call_id c') (call_id c)))
                (pipelined_calls st)) st).
Proof.
  intros Hf Ht Hc. unfold get_answer_resume. rewrite bind_gets, Hf, bind_gets, Ht.
  unfold remove_call. unfold bind at 1. rewrite bind_gets, Hc. reflexivity.
Qed.

Lemma exec_start_spec (st : engine) :
  in_transaction st = true ->
  exec_start st =
  (inr (S (next_id st),
        {| call_id := next_id st; call_cmd := b"exec"; call_blocking := false |},
        trq st),
   snd (query [b"exec"] false (set_trq None st))).
Proof.
  intros Ht. unfold exec_start. rewrite bind_gets, Ht. cbn [negb].
  rewrite bind_gets, bind_modify. unfold bind at 1. rewrite query_spec.
  reflexivity.
Qed.

Lemma dispatch_nil_multi (st : engine) (f : nat) (q : list nat) :
  in_pubsub st = false -> queue st = f :: q -> futs st !! f = Some Pending ->
  dispatch_all [EMulti (-1)] st =
  (inr tt, set_futs (<[f := Done (VMulti (-1) [])]> (futs st)) (set_queue q st)).
Proof.
  intros Hps Hq Hf. cbn [dispatch_all dispatch]. unfold handle_multi_bulk_reply.
  unfold bind at 1. rewrite bind_gets, bind_gets, Hps.
  change (Z.to_nat (-1)) with 0%nat. cbn [seq new_futures].
  rewrite (bind_inr _ _ _ _ _ (push_answer_spec _ _ f q Hq Hf)).
  reflexivity.
Qed.

Lemma dispatch_all_single_flat (ev : event) (st : engine) (f : nat) (q : list nat) :
  flat ev = true -> queue st = f :: q -> futs st !! f = Some Pending ->
  dispatch_all [ev] st =
  (inr tt, set_futs (<[f := reply_fstate ev 0]> (futs st)) (set_queue q st)).
Proof.
  intros Hflat Hq Hf. cbn [dispatch_all].
  rewrite (bind_inr _ _ _ _ _ (dispatch_flat_spec ev st f q Hflat Hq Hf)).
  reflexivity.
Qed.

Lemma discard_start_spec (st : engine) :
  in_transaction st = true ->
  discard_start st =
  (inr (S (next_id st),
        {| call_id := next_id st; call_cmd := b"discard"; call_blocking := false |}),
   snd (query [b"discard"] false (set_in_transaction false (set_trq (Some []) st)))).
Proof.
  intros Ht. unfold discard_start. rewrite bind_gets, Ht. cbn [negb].
  rewrite bind_modify, bind_modify, query_spec. reflexivity.
Qed.

Lemma fail_queue_spec (fuel : nat) (st : engine) :
  NoDup (queue st) -> Forall (fun f => futs st !! f = Some Pending) (queue st) ->
  (length (queue st) <= fuel)%nat ->
  exists m', fail_queue fuel st = (inr tt, set_queue [] (set_futs m' st)) /\
    forall g, m' !! g = if decide (g ∈ queue st) then Some (Failed ConnectionLostError)
                        else futs st !! g.
Proof.
  revert st. induction fuel as [|fuel IH]; intros st Hnd Hp Hl.
  - destruct (queue st) as [|f q] eqn:Hq; [|cbn in Hl; lia].
    exists (futs st). split.
    + destruct st; cbn in Hq; subst. reflexivity.
    + intros g. rewrite decide_False; [reflexivity|]. apply not_elem_of_nil.
  - cbn [fail_queue]. rewrite bind_gets.
    destruct (queue st) as [|f q] eqn:Hq.
    + exists (futs st). split.
      * destruct st; cbn in Hq; subst. reflexivity.
      * intros g. rewrite decide_False; [reflexivity|]. apply not_elem_of_nil.
    + inversion Hnd as [|? ? Hfq Hndq]; subst.
      apply List.Forall_cons_iff in Hp as [Hf Hpq].
      rewrite bind_modify.
      rewrite (bind_inr _ _ _ _ _ (settle_pending f (Failed ConnectionLostError)
                                     (set_queue q st) Hf)).
      set (st1 := set_futs (<[f := Failed ConnectionLostError]> (futs (set_queue q st)))
                    (set_queue q st)).
      destruct (IH st1) as [m' [Hrun Hm']].
      * exact Hndq.
      * apply List.Forall_forall. intros g Hg.
        apply List.Forall_forall with (x := g) in Hpq; [|exact Hg].
        unfold st1; cbn [futs set_futs set_queue].
        rewrite lookup_insert_ne; [exact Hpq|].
        intros ->. apply Hfq. by apply list_elem_of_In.
      * cbn in Hl |- *. lia.
      * exists m'. split.
        -- rewrite Hrun. reflexivity.
        -- intros g. rewrite Hm'. unfold st1; cbn [futs set_futs set_queue queue].
           destruct (decide (g ∈ q)) as [Hg|Hg].
           ++ rewrite decide_True; [reflexivity|]. by apply elem_of_cons; right.
           ++ destruct (decide (g = f)) as [->|Hne].
              ** rewrite lookup_insert_eq, decide_True; [reflexivity|].
                 apply elem_of_cons; by left.
              ** rewrite lookup_insert_ne by congruence.
                 rewrite decide_False; [reflexivity|].
                 intros [?|?]%elem_of_cons; [congruence|contradiction].
Qed.

(* ------------------------------------------------------------------ *)
(** ** Engine lemmas for the further properties *)


(* ------------------------------------------------------------------ *)
(** ** Integers on the wire *)

Lemma digit_byte_val (d : nat) :
  (d < 10)%nat -> Byte.to_nat (digit_byte d) = (48 + d)%nat.
Proof.
  intros H. do 10 (destruct d as [|d]; [reflexivity|]). lia.
Qed.

Lemma is_digit_digit_byte (d : nat) : (d < 10)%nat -> is_digit (digit_byte d) = true.
Proof.
  intros H. unfold is_digit. rewrite digit_byte_val by exact H.
  apply andb_true_intro; split; apply Nat.leb_le; lia.
Qed.

Lemma decimal_rev_fuel (f f' n : nat) :
  (n < f)%nat -> (n < f')%nat -> decimal_rev f n = decimal_rev f' n.
Proof.
  revert f' n. induction f as [|f IH]; intros f' n H H'; [lia|].
  destruct f' as [|f']; [lia|]. cbn [decimal_rev].
  destruct (n <? 10)%nat eqn:E; [reflexivity|].
  apply Nat.ltb_ge in E. f_equal. apply IH.
  - apply Nat.lt_le_trans with n; [apply Nat.div_lt; lia|lia].
  - apply Nat.lt_le_trans with n; [apply Nat.div_lt; lia|lia].
Qed.

Lemma decimal_small (n : nat) : (n < 10)%nat -> decimal n = [digit_byte n].
Proof.
  intros H. unfold decimal. cbn [decimal_rev].
  apply Nat.ltb_lt in H as H'. rewrite H'. rewrite Nat.mod_small by lia. reflexivity.
Qed.

Lemma decimal_big (n : nat) :
  (10 <= n)%nat -> decimal n = decimal (n / 10) ++ [digit_byte (n mod 10)].
Proof.
  intros H. unfold decimal at 1. cbn [decimal_rev].
  destruct (n <? 10)%nat eqn:E; [apply Nat.ltb_lt in E; lia|].
  cbn [rev]. unfold decimal. f_equal. f_equal. apply decimal_rev_fuel.
  - apply Nat.div_lt; lia.
  - lia.
Qed.

Lemma decimal_digits (n : nat) : Forall (fun c => is_digit c = true) (decimal n).
Proof.
  induction n as [n IH] using (well_founded_induction lt_wf).
  destruct (Nat.lt_ge_cases n 10) as [H|H].
  - rewrite decimal_small by exact H. constructor; [|constructor].
    by apply is_digit_digit_byte.
  - rewrite decimal_big by exact H. apply Forall_app. split.
    + apply IH. apply Nat.div_lt; lia.
    + constructor; [|constructor]. apply is_digit_digit_byte, Nat.mod_upper_bound. lia.
Qed.

Lemma decimal_nonempty (n : nat) : decimal n <> [].
Proof.
  destruct (Nat.lt_ge_cases n 10) as [H|H].
  - by rewrite decimal_small.
  - rewrite decimal_big by exact H. destruct (decimal (n / 10)); discriminate.
Qed.

Lemma parse_digits_digits (l : bytes) (acc : Z) (pd : bool) :
  Forall (fun c => is_digit c = true) l -> l <> [] ->
  parse_digits l acc pd = Some (digits_val l acc).
Proof.
  revert acc pd. induction l as [|c l IH]; intros acc pd Hd Hne; [done|].
  inversion Hd as [|? ? Hc Hl]; subst. cbn [parse_digits]. rewrite Hc.
  destruct l as [|c' l].
  - reflexivity.
  - rewrite IH; [reflexivity|exact Hl|discriminate].
Qed.

Lemma digits_val_decimal (n : nat) : digits_val (decimal n) 0 = Z.of_nat n.
Proof.
  induction n as [n IH] using (well_founded_induction lt_wf).
  destruct (Nat.lt_ge_cases n 10) as [H|H].
  - rewrite decimal_small by exact H. unfold digits_val. cbn [fold_left].
    rewrite digit_byte_val by exact H. lia.
  - rewrite decimal_big by exact H. unfold digits_val. rewrite fold_left_app.
    fold (digits_val (decimal (n / 10)) 0). rewrite IH by (apply Nat.div_lt; lia).
    cbn [fold_left]. rewrite digit_byte_val by (apply Nat.mod_upper_bound; lia).
    pose proof (Nat.div_mod n 10 ltac:(lia)). lia.
Qed.

Lemma is_digit_not_space (c : byte) : is_digit c = true -> is_space c = false.
Proof.
  unfold is_digit, is_space. intros H. apply andb_prop in H as [H1 H2].
  apply Nat.leb_le in H1, H2. apply orb_false_intro.
  - apply Nat.eqb_neq. lia.
  - apply andb_false_intro2. apply Nat.leb_gt. lia.
Qed.

Lemma strip_left_keep (c : byte) (t : bytes) :
  is_space c = false -> strip_left (c :: t) = c :: t.
Proof. intros H. cbn [strip_left]. by rewrite H. Qed.

(** A byte string that starts and ends with a non-space byte is left
    alone by [strip]. *)
Lemma strip_keep (c : byte) (t : bytes) (d : byte) :
  is_space c = false -> is_space d = false -> strip (c :: t ++ [d]) = c :: t ++ [d].
Proof.
  intros Hc Hd. unfold strip. rewrite strip_left_keep by exact Hc.
  change (c :: t ++ [d]) with ((c :: t) ++ [d]). rewrite rev_app_distr.
  cbn [rev app]. rewrite strip_left_keep by exact Hd.
  rewrite <- (rev_involutive (c :: t ++ [d])). f_equal.
  rewrite (app_comm_cons t [d] c), rev_app_distr. reflexivity.
Qed.

Lemma strip_digits (l : bytes) (c : byte) :
  is_space c = false -> Forall (fun c => is_digit c = true) l -> l <> [] ->
  strip (c :: l) = c :: l.
Proof.
  intros Hc Hl Hne. destruct (exists_last Hne) as [t [d ->]].
  apply Forall_app in Hl as [_ Hd]. inversion Hd; subst.
  change (c :: t ++ [d]) with (c :: t ++ [d]). apply strip_keep; [exact Hc|].
  by apply is_digit_not_space.
Qed.

Lemma strip_digits_all (l : bytes) :
  Forall (fun c => is_digit c = true) l -> l <> [] -> strip l = l.
Proof.
  intros Hl Hne. destruct (exists_last Hne) as [t [d ->]].
  apply Forall_app in Hl as [Ht Hd]. inversion Hd as [|? ? Hd' _]; subst.
  destruct t as [|c t].
  - unfold strip. cbn [strip_left rev app]. rewrite (is_digit_not_space d Hd').
    cbn [strip_left rev app]. by rewrite (is_digit_not_space d Hd').
  - inversion Ht; subst. apply strip_keep; by apply is_digit_not_space.
Qed.

(** [int(str(z).encode('ascii'))] gives [z] back. *)
Lemma py_int_encode_int (z : Z) : py_int (encode_int z) = Some z.
Proof.
  unfold encode_int, py_int. destruct (z <? 0) eqn:Hz.
  - apply Z.ltb_lt in Hz.
    change (b"-" ++ decimal (Z.to_nat (- z))) with (x2d :: decimal (Z.to_nat (- z))).
    rewrite strip_digits; [|reflexivity|apply decimal_digits|apply decimal_nonempty].
    change (byte_is x2d 45) with true. cbv iota.
    rewrite parse_digits_digits; [|apply decimal_digits|apply decimal_nonempty].
    cbn [option_map]. rewrite digits_val_decimal. f_equal. lia.
  - apply Z.ltb_ge in Hz.
    rewrite strip_digits_all by (apply decimal_digits || apply decimal_nonempty).
    pose proof (decimal_digits (Z.to_nat z)) as Hd.
    pose proof (decimal_nonempty (Z.to_nat z)) as Hne.
    transitivity (Some (digits_val (decimal (Z.to_nat z)) 0));
      [|rewrite digits_val_decimal; f_equal; lia].
    destruct (decimal (Z.to_nat z)) as [|c t] eqn:E; [done|].
    inversion Hd as [|? ? Hc Ht]; subst.
    assert (byte_is c 45 = false /\ byte_is c 43 = false) as [-> ->].
    { unfold byte_is, is_digit in *. apply andb_prop in Hc as [H1 H2].
      apply Nat.leb_le in H1, H2. split; apply Nat.eqb_neq; lia. }
    by rewrite parse_digits_digits.
Qed.


(* ------------------------------------------------------------------ *)
(** ** Framing lemmas *)

Lemma byte_is_13 (c : byte) : byte_is c 13 = true -> c = x0d.
Proof.
  unfold byte_is. intros H. apply Nat.eqb_eq in H.
  pose proof (Byte.of_to_nat c) as E. rewrite H in E. by injection E.
Qed.

Lemma byte_is_10 (c : byte) : byte_is c 10 = true -> c = x0a.
Proof.
  unfold byte_is. intros H. apply Nat.eqb_eq in H.
  pose proof (Byte.of_to_nat c) as E. rewrite H in E. by injection E.
Qed.

Lemma split_crlf_some (x l r : bytes) :
  split_crlf x = Some (l, r) -> x = l ++ crlf ++ r.
Proof.
  revert l r. induction x as [|c rest IH]; intros l r H; [discriminate|].
  destruct rest as [|d rest']; [discriminate|].
  rewrite split_crlf_cons2 in H.
  destruct (byte_is c 13 && byte_is d 10) eqn:Ecd.
  - apply andb_prop in Ecd as [Hc Hd].
    apply byte_is_13 in Hc as ->. apply byte_is_10 in Hd as ->.
    inversion H; subst. reflexivity.
  - destruct (split_crlf (d :: rest')) as [[l0 r0]|] eqn:E; [|discriminate].
    injection H as <- <-. rewrite (IH l0 r0 eq_refl). reflexivity.
Qed.

Lemma split_crlf_no_cr (l : bytes) :
  Forall (fun c => byte_is c 13 = false) l -> split_crlf l = None.
Proof.
  induction l as [|c t IH]; intros H; [reflexivity|].
  inversion H as [|? ? Hc Ht]; subst.
  destruct t as [|d t']; [reflexivity|].
  rewrite split_crlf_cons2, Hc. cbn [andb]. by rewrite IH.
Qed.

Lemma digit_not_cr (c : byte) : is_digit c = true -> byte_is c 13 = false.
Proof.
  unfold is_digit, byte_is. intros H. apply andb_prop in H as [H1 _].
  apply Nat.leb_le in H1. apply Nat.eqb_neq. lia.
Qed.

Lemma decimal_no_cr (n : nat) : Forall (fun c => byte_is c 13 = false) (decimal n).
Proof.
  eapply Forall_impl; [apply decimal_digits|]. intros c. apply digit_not_cr.
Qed.

Lemma encode_int_no_cr (z : Z) : Forall (fun c => byte_is c 13 = false) (encode_int z).
Proof.
  unfold encode_int. destruct (z <? 0).
  - constructor; [reflexivity|apply decimal_no_cr].
  - apply decimal_no_cr.
Qed.

Lemma encode_int_of_nat (n : nat) : encode_int (Z.of_nat n) = decimal n.
Proof.
  unfold encode_int. replace (Z.of_nat n <? 0) with false by (symmetry; apply Z.ltb_ge; lia).
  by rewrite Nat2Z.id.
Qed.

Lemma py_int_decimal (n : nat) : py_int (decimal n) = Some (Z.of_nat n).
Proof. rewrite <- encode_int_of_nat. apply py_int_encode_int. Qed.

Lemma drain_nil (n : nat) (p : pstate) : drain n p [] = DOk p [] [].
Proof. by destruct n. Qed.

(** One complete line on an empty buffer. *)
Lemma data_received_line (p : pstate) (line : bytes) :
  split_crlf line = None ->
  data_received p [] (line ++ crlf) =
  match decode_line p line with
  | inl e => DErr e []
  | inr (p', evs) => DOk p' [] evs
  end.
Proof.
  intros Hs. unfold data_received. rewrite app_nil_l, length_app.
  replace (length line + length crlf)%nat with (S (S (length line))) by (cbn; lia).
  rewrite drain_S, (split_crlf_line line Hs).
  destruct (decode_line p line) as [e|[p' evs]]; [reflexivity|].
  rewrite drain_nil. cbn [dres_prepend]. by rewrite app_nil_r.
Qed.

(** The body of a bulk reply: [pre] was received already, [a ++ CRLF]
    comes now, and the announced length is [len(pre) + len(a)]. The body
    may contain CRLF itself. *)
Lemma drain_bulk_body (a pre : bytes) (fuel : nat) :
  (length (a ++ crlf) < fuel)%nat ->
  drain fuel {| in_bulk_reply := true;
                bulk_reply_len := Z.of_nat (length pre + length a);
                bulk_reply_buffer := pre |} (a ++ crlf) =
  if utf8_ok (pre ++ a) then DOk pstate0 [] [EBulk (pre ++ a)]
  else DErr UnicodeDecodeError [].
Proof.
  remember (length a) as k eqn:Hk.
  revert a pre fuel Hk. induction k as [k IH] using (well_founded_induction lt_wf).
  intros a pre fuel Hk Hf. destruct fuel as [|fuel]; [lia|].
  rewrite drain_S. destruct (split_crlf a) as [[l r]|] eqn:Ea.
  - pose proof (split_crlf_some _ _ _ Ea) as Ha.
    rewrite (split_crlf_app _ _ _ _ Ea).
    unfold decode_line, handle_bulk_reply_part. cbn [in_bulk_reply bulk_reply_len
      bulk_reply_buffer].
    replace (Z.of_nat (length (pre ++ l ++ crlf)) >? Z.of_nat (length pre + k))
      with false.
    2:{ symmetry. rewrite Z.gtb_ltb. apply Z.ltb_ge. subst a k.
        rewrite !length_app. cbn. lia. }
    rewrite dres_prepend_nil.
    assert (Hlen : length a = (length l + 2 + length r)%nat)
      by (rewrite Ha, !length_app; cbn; lia).
    specialize (IH (length r) ltac:(lia) r (pre ++ l ++ crlf) fuel eq_refl).
    replace (Z.of_nat (length pre + k)) with
      (Z.of_nat (length (pre ++ l ++ crlf) + length r))
      by (rewrite !length_app; cbn; lia).
    rewrite IH by (rewrite length_app in *; cbn in *; lia).
    rewrite <- !app_assoc, <- Ha. reflexivity.
  - rewrite (split_crlf_line a Ea).
    unfold decode_line, handle_bulk_reply_part. cbn [in_bulk_reply bulk_reply_len
      bulk_reply_buffer].
    replace (Z.of_nat (length (pre ++ a ++ crlf)) >? Z.of_nat (length pre + k))
      with true.
    2:{ symmetry. apply Z.gtb_lt. subst k. rewrite !length_app. cbn. lia. }
    unfold py_slice_to. replace (0 <=? Z.of_nat (length pre + k)) with true
      by (symmetry; apply Z.leb_le; lia).
    rewrite Nat2Z.id, app_assoc, firstn_app.
    replace (length pre + k - length (pre ++ a))%nat with 0%nat
      by (rewrite length_app; lia).
    rewrite firstn_O, app_nil_r, firstn_all2 by (rewrite length_app; lia).
    destruct (utf8_ok (pre ++ a)); [|reflexivity].
    rewrite drain_nil. reflexivity.
Qed.

(** The bytes [_send_command] writes for one argument. *)
Lemma bulk_frame_decodes (a : bytes) :
  data_received pstate0 [] (b"$" ++ decimal (length a) ++ crlf ++ a ++ crlf) =
  if utf8_ok a then DOk pstate0 [] [EBulk a] else DErr UnicodeDecodeError [].
Proof.
  replace (b"$" ++ decimal (length a) ++ crlf ++ a ++ crlf)
    with (((b"$" ++ decimal (length a)) ++ crlf) ++ (a ++ crlf))
    by (rewrite <- !app_assoc; reflexivity).
  rewrite data_received_app.
  rewrite data_received_line.
  2:{ apply split_crlf_no_cr. constructor; [reflexivity|apply decimal_no_cr]. }
  change (b"$" ++ decimal (length a)) with (x24 :: decimal (length a)).
  unfold decode_line. cbn [in_bulk_reply pstate0 line_received].
  change (byte_is x24 43) with false. change (byte_is x24 45) with false.
  change (byte_is x24 36) with true. cbv iota.
  unfold handle_bulk_reply. rewrite py_int_decimal.
  replace (Z.of_nat (length a) =? -1) with false by (symmetry; apply Z.eqb_neq; lia).
  cbn [dres_prepend app]. unfold data_received. rewrite app_nil_l.
  pose proof (drain_bulk_body a [] (S (length (a ++ crlf))) ltac:(lia)) as H.
  cbn [length app Nat.add] in H. rewrite H. by destruct (utf8_ok a).
Qed.


Lemma frames_decode (args : list bytes) :
  Forall (fun a => utf8_ok a = true) args ->
  data_received pstate0 []
    (concat (map (fun a => b"$" ++ decimal (length a) ++ crlf ++ a ++ crlf) args))
  = DOk pstate0 [] (map EBulk args).
Proof.
  induction args as [|a args IH]; intros H; [reflexivity|].
  inversion H as [|? ? Ha Hargs]; subst.
  cbn [map concat]. rewrite data_received_app, bulk_frame_decodes, Ha.
  cbn [dres_prepend]. rewrite IH by exact Hargs. reflexivity.
Qed.


(* ------------------------------------------------------------------ *)
(** ** Frame lemmas for the engine *)

Section Frame.
Context {T : Type} (proj : engine -> T).

Lemma keeps_ret {A} (a : A) : keeps proj (ret a).
Proof. intros st. reflexivity. Qed.

Lemma keeps_raise {A} (e : exn) : keeps proj (@raise A e).
Proof. intros st. reflexivity. Qed.

Lemma keeps_gets {A} (f : engine -> A) : keeps proj (gets f).
Proof. intros st. reflexivity. Qed.

Lemma keeps_modify (f : engine -> engine) :
  (forall st, proj (f st) = proj st) -> keeps proj (modify f).
Proof. intros H st. apply H. Qed.

Lemma keeps_bind {A B} (m : M A) (k : A -> M B) :
  keeps proj m -> (forall a, keeps proj (k a)) -> keeps proj (bind m k).
Proof.
  intros Hm Hk st. unfold bind. specialize (Hm st).
  destruct (m st) as [[e|a] st']; cbn in *; [exact Hm|]. by rewrite Hk.
Qed.

End Frame.

Section Commute.
Context (g : engine -> engine).

Lemma commutes_ret {A} (a : A) : commutes g (ret a).
Proof. intros st. reflexivity. Qed.

Lemma commutes_raise {A} (e : exn) : commutes g (@raise A e).
Proof. intros st. reflexivity. Qed.

Lemma commutes_gets {A} (f : engine -> A) :
  (forall st, f (g st) = f st) -> commutes g (gets f).
Proof. intros H st. unfold gets. by rewrite H. Qed.

Lemma commutes_modify (f : engine -> engine) :
  (forall st, f (g st) = g (f st)) -> commutes g (modify f).
Proof. intros H st. unfold modify. by rewrite H. Qed.

Lemma commutes_bind {A B} (m : M A) (k : A -> M B) :
  commutes g m -> (forall a, commutes g (k a)) -> commutes g (bind m k).
Proof.
  intros Hm Hk st. unfold bind. rewrite Hm.
  destruct (m st) as [[e|a] st']; cbn; [reflexivity|]. apply Hk.
Qed.

End Commute.

Ltac frame_tac :=
  repeat first
    [ apply keeps_bind; [|intros ?]
    | apply keeps_ret | apply keeps_raise | apply keeps_gets
    | apply keeps_modify; intros []; reflexivity
    | apply commutes_bind; [|intros ?]
    | apply commutes_ret | apply commutes_raise
    | apply commutes_gets; intros []; reflexivity
    | apply commutes_modify; intros []; reflexivity
    | case_match ].

Lemma keeps_new_futures {T} (proj : engine -> T) (k : nat) :
  (forall st n m, proj (set_next_id n (set_futs m st)) = proj st) ->
  keeps proj (new_futures k).
Proof.
  intros H. induction k as [|k IH]; cbn [new_futures]; unfold new_future; frame_tac.
  - apply keeps_modify. intros st. apply H.
  - exact IH.
Qed.

Lemma dispatch_all_keeps (evs : list event) : keeps call_state (dispatch_all evs).
Proof.
  induction evs as [|ev evs IH]; cbn [dispatch_all]; [apply keeps_ret|].
  apply keeps_bind; [|intros _; exact IH].
  destruct ev; cbn [dispatch]; unfold push_answer, settle, handle_multi_bulk_reply;
    frame_tac; apply keeps_new_futures; intros []; reflexivity.
Qed.

Lemma commutes_new_futures (p : pstate) (bf : bytes) (k : nat) :
  commutes (dec_buffer_update p bf) (new_futures k).
Proof.
  induction k as [|k IH]; cbn [new_futures]; unfold new_future; frame_tac. exact IH.
Qed.

Lemma dispatch_all_commutes (p : pstate) (bf : bytes) (evs : list event) :
  commutes (dec_buffer_update p bf) (dispatch_all evs).
Proof.
  induction evs as [|ev evs IH]; cbn [dispatch_all]; [apply commutes_ret|].
  apply commutes_bind; [|intros _; exact IH].
  destruct ev; cbn [dispatch]; unfold push_answer, settle, handle_multi_bulk_reply;
    frame_tac; apply commutes_new_futures.
Qed.

Lemma engine_data_received_keeps (data : bytes) :
  keeps call_state (engine_data_received data).
Proof.
  unfold engine_data_received.
  apply keeps_bind; [apply keeps_modify; intros []; reflexivity|intros _].
  apply keeps_bind; [apply keeps_gets|intros bf].
  generalize (S (length bf)). intros n.
  induction n as [|n IH]; cbn [engine_drain]; frame_tac;
    first [apply dispatch_all_keeps | exact IH].
Qed.


Lemma dispatch_all_app (a c : list event) (st : engine) :
  dispatch_all (a ++ c) st = bind (dispatch_all a) (fun _ => dispatch_all c) st.
Proof.
  revert st. induction a as [|ev a IH]; intros st; [reflexivity|].
  cbn [app dispatch_all]. unfold bind at 1 2 3.
  destruct (dispatch ev st) as [[e|[]] st1]; [reflexivity|]. apply IH.
Qed.

Lemma dec_buffer_update_self (st : engine) :
  dec_buffer_update (dec st) (buffer st) st = st.
Proof. by destruct st. Qed.

Lemma dec_buffer_update_twice (p p' : pstate) (bf bf' : bytes) (st : engine) :
  dec_buffer_update p bf (dec_buffer_update p' bf' st) = dec_buffer_update p bf st.
Proof. by destruct st. Qed.

(** The engine's [data_received] loop is the pure decoder followed by
    the handlers, when these raise nothing. *)
Lemma engine_drain_decode (n : nat) (st st' : engine) (p : pstate) (bf : bytes)
  (evs : list event) :
  drain n (dec st) (buffer st) = DOk p bf evs ->
  dispatch_all evs st = (inr tt, st') ->
  engine_drain n st = (inr tt, dec_buffer_update p bf st').
Proof.
  revert st st' p bf evs. induction n as [|n IH]; intros st st' p bf evs Hd Hdisp.
  - cbn in Hd. injection Hd as <- <- <-. cbn in Hdisp. injection Hdisp as <-.
    cbn. by rewrite dec_buffer_update_self.
  - rewrite drain_S in Hd. rewrite engine_drain_S, bind_gets.
    destruct (split_crlf (buffer st)) as [[line rest]|] eqn:Hs.
    + rewrite bind_modify, bind_gets. cbn [dec set_buffer].
      destruct (decode_line (dec st) line) as [e|[p1 evs1]] eqn:Hl; [discriminate|].
      destruct (drain n p1 rest) as [p2 bf2 evs2|e evs2] eqn:Hd2; [|discriminate].
      cbn [dres_prepend] in Hd. injection Hd as -> -> <-.
      rewrite dispatch_all_app in Hdisp. unfold bind in Hdisp.
      destruct (dispatch_all evs1 st) as [[e|[]] st1] eqn:H1; [discriminate|].
      rewrite bind_modify.
      change (set_dec p1 (set_buffer rest st)) with (dec_buffer_update p1 rest st).
      rewrite (bind_inr _ _ _ (dec_buffer_update p1 rest st1) tt).
      2:{ rewrite dispatch_all_commutes, H1. reflexivity. }
      rewrite (IH _ (dec_buffer_update p1 rest st') p bf evs2).
      * by rewrite dec_buffer_update_twice.
      * destruct st1; exact Hd2.
      * rewrite dispatch_all_commutes, Hdisp. reflexivity.
    + injection Hd as <- <- <-. cbn in Hdisp. injection Hdisp as <-.
      cbn. by rewrite dec_buffer_update_self.
Qed.

Lemma engine_data_received_decode (data : bytes) (st st' : engine) (p : pstate)
  (bf : bytes) (evs : list event) :
  data_received (dec st) (buffer st) data = DOk p bf evs ->
  dispatch_all evs st = (inr tt, st') ->
  engine_data_received data st = (inr tt, dec_buffer_update p bf st').
Proof.
  intros Hd Hdisp. unfold engine_data_received. rewrite bind_modify, bind_gets.
  change (set_buffer (buffer st ++ data) st)
    with (dec_buffer_update (dec st) (buffer st ++ data) st).
  erewrite engine_drain_decode.
  - by rewrite dec_buffer_update_twice.
  - exact Hd.
  - rewrite dispatch_all_commutes, Hdisp. reflexivity.
Qed.


(* ------------------------------------------------------------------ *)
(** ** Replies, pub/sub and the transaction flag *)

(** Flat replies complete the futures at the head of [_queue], in order,
    whatever their identities. *)
Lemma dispatch_all_flat_list (evs : list event) (fs q : list nat) (st : engine) :
  queue st = fs ++ q -> length fs = length evs -> NoDup fs ->
  Forall (fun f => futs st !! f = Some Pending) fs ->
  forallb flat evs = true ->
  exists m', dispatch_all evs st = (inr tt, set_queue q (set_futs m' st)) /\
    (forall i f e, fs !! i = Some f -> evs !! i = Some e ->
                   m' !! f = Some (reply_fstate e 0)) /\
    (forall g, g ∉ fs -> m' !! g = futs st !! g).
Proof.
  revert fs st. induction evs as [|e evs IH]; intros fs st Hq Hl Hnd Hp Hflat.
  - destruct fs; [|discriminate]. exists (futs st). split; [|split].
    + simpl in Hq. destruct st; unfold_setters; simpl in *; subst. reflexivity.
    + intros i f e' _ He. by rewrite lookup_nil in He.
    + reflexivity.
  - destruct fs as [|f fs]; [discriminate|]. simpl in Hl, Hflat, Hq.
    apply andb_prop in Hflat as [Hfe Hflat].
    apply NoDup_cons in Hnd as [Hnin Hnd]. apply Forall_cons in Hp as [Hf Hp].
    cbn [dispatch_all].
    erewrite bind_inr by (apply dispatch_flat_spec; eassumption).
    set (st1 := set_futs (<[f := reply_fstate e 0]> (futs st)) (set_queue (fs ++ q) st)).
    destruct (IH fs st1) as [m' [Hd [Hr Ho]]]; [reflexivity|lia|exact Hnd| |exact Hflat|].
    { apply Forall_forall. intros g Hg. unfold st1; unfold_setters; cbn [futs].
      rewrite lookup_insert_ne by (intros ->; contradiction).
      by apply (Forall_forall _ fs) with (x := g) in Hp. }
    exists m'. split; [|split].
    + rewrite Hd. unfold st1. destruct st; unfold_setters; reflexivity.
    + intros [|i] f' e' Hf' He'.
      * simpl in Hf', He'. injection Hf' as <-. injection He' as <-.
        rewrite Ho by exact Hnin. unfold st1; unfold_setters; cbn [futs].
        by rewrite lookup_insert_eq.
      * simpl in Hf', He'. by apply (Hr i f' e').
    + intros g Hg. apply not_elem_of_cons in Hg as [Hgf Hg].
      rewrite Ho by exact Hg. unfold st1; unfold_setters; cbn [futs].
      by rewrite lookup_insert_ne by congruence.
Qed.

(** With [_queue] empty and no subscription, a reply handler raises
    [IndexError] before changing anything. *)
Lemma dispatch_empty_queue (ev : event) (st : engine) :
  queue st = [] -> in_pubsub st = false -> dispatch ev st = (inl IndexError, st).
Proof.
  intros Hq Hps. destruct ev; cbn [dispatch]; unfold push_answer;
    try (rewrite bind_gets, Hq; reflexivity).
  cbv [handle_multi_bulk_reply bind gets modify ret push_answer raise].
  rewrite Hps, Hq. reflexivity.
Qed.
(** A reply decoded while nobody waits: the first handler raises. *)
Lemma dres_events_prepend (evs : list event) (r : dres) :
  dres_events (dres_prepend evs r) = evs ++ dres_events r.
Proof. by destruct r. Qed.

Lemma engine_drain_unsolicited (n : nat) (st : engine) (ev : event) (evs : list event) :
  queue st = [] -> in_pubsub st = false ->
  dres_events (drain n (dec st) (buffer st)) = ev :: evs ->
  fst (engine_drain n st) = inl IndexError.
Proof.
  revert st ev evs. induction n as [|n IH]; intros st ev evs Hq Hps Hd; [discriminate|].
  rewrite drain_S in Hd. rewrite engine_drain_S, bind_gets.
  destruct (split_crlf (buffer st)) as [[line rest]|]; [|discriminate].
  rewrite bind_modify, bind_gets. cbn [dec set_buffer].
  destruct (decode_line (dec st) line) as [e|[p1 evs1]]; [discriminate|].
  rewrite bind_modify. rewrite dres_events_prepend in Hd.
  destruct evs1 as [|e1 evs1].
  - cbn [dispatch_all]. unfold bind at 1. cbn [ret].
    apply (IH _ ev evs); [destruct st; exact Hq|destruct st; exact Hps|].
    destruct st; exact Hd.
  - cbn [dispatch_all]. unfold bind at 1 2.
    rewrite dispatch_empty_queue by (destruct st; assumption). reflexivity.
Qed.


(** [_handle_multi_bulk_reply] in pub/sub mode. *)
Lemma handle_multi_bulk_pubsub (c : Z) (st : engine) :
  in_pubsub st = true ->
  exists m', handle_multi_bulk_reply c st =
    (inr tt, set_queue (seq (next_id st) (Z.to_nat c) ++ queue st)
       (set_next_id (next_id st + Z.to_nat c) (set_futs m'
          (set_pubsub_replies
             (pubsub_replies st ++ [VMulti c (seq (next_id st) (Z.to_nat c))]) st)))) /\
    forall g, m' !! g = if decide (next_id st <= g < next_id st + Z.to_nat c)%nat
                        then Some Pending else futs st !! g.
Proof.
  intros Hps. unfold handle_multi_bulk_reply. rewrite bind_gets. cbv zeta.
  rewrite bind_gets, Hps. cbv beta iota. rewrite bind_modify.
  set (st1 := set_pubsub_replies
                (pubsub_replies st ++ [VMulti c (seq (next_id st) (Z.to_nat c))]) st).
  destruct (new_futures_spec (Z.to_nat c) st1) as [m' [Hn Hm']].
  exists m'. erewrite bind_inr by exact Hn. split.
  - unfold st1. destruct st; reflexivity.
  - exact Hm'.
Qed.

(** [filter] by identity drops nothing of a list of older calls. *)
Lemma filter_fresh_call (cs : list call) (n : nat) (c : call) :
  Forall (fun c' => (call_id c' < n)%nat) cs -> call_id c = n ->
  filter (fun c' => negb (Nat.eqb (call_id c') (call_id c))) (cs ++ [c]) = cs.
Proof.
  intros Hcs Hc. induction Hcs as [|c' cs Hc' Hcs IH].
  - cbn [app]. rewrite filter_cons_False; [reflexivity|].
    rewrite Nat.eqb_refl. cbn. tauto.
  - cbn [app]. rewrite filter_cons_True; [by rewrite IH|].
    replace (call_id c' =? call_id c)%nat with false
      by (symmetry; apply Nat.eqb_neq; lia). exact I.
Qed.

Lemma keeps_call_state_in_transaction {A} (m : M A) :
  keeps call_state m -> keeps in_transaction m.
Proof.
  intros H st. specialize (H st). unfold call_state in H. by injection H.
Qed.

Lemma get_answer_resume_keeps (bypass : bool) (pp : option postproc) (c : call)
  (f : nat) : keeps in_transaction (get_answer_resume bypass pp c f).
Proof.
  unfold get_answer_resume, new_future, remove_call. frame_tac.
Qed.

Lemma write_args_keeps (args : list bytes) : keeps in_transaction (write_args args).
Proof.
  induction args as [|a args IH]; cbn [write_args]; unfold write; frame_tac. exact IH.
Qed.

Lemma run_query_keeps (args : list bytes) (blocking bypass : bool) (reply : bytes) :
  keeps in_transaction (run_query args blocking bypass reply).
Proof.
  unfold run_query. apply keeps_bind; [|intros fc].
  - unfold query, new_call, new_future, send_command, write.
    frame_tac. apply write_args_keeps.
  - apply keeps_bind; [apply keeps_call_state_in_transaction, engine_data_received_keeps|].
    intros _. apply get_answer_resume_keeps.
Qed.

Lemma discard_finish_keeps (v : value) : keeps in_transaction (discard_finish v).
Proof. unfold discard_finish. frame_tac. Qed.

Lemma watch_keys_keeps (keys rs : list bytes) : keeps in_transaction (watch_keys keys rs).
Proof.
  revert rs. induction keys as [|k keys IH]; intros rs; cbn [watch_keys]; [apply keeps_ret|].
  destruct (next_reply rs) as [r rs']. apply keeps_bind; [apply run_query_keeps|].
  intros []; try apply keeps_ret. apply keeps_bind; [apply discard_finish_keeps|].
  intros _. apply IH.
Qed.

(** In a transaction and without [_bypass], [_get_answer] never returns
    the reply itself: it waits, returns the detached future, or raises. *)
Lemma get_answer_resume_in_transaction (pp : option postproc) (c : call) (f : nat)
  (st : engine) :
  in_transaction st = true ->
  match fst (get_answer_resume false pp c f st) with
  | inr GAWaiting | inr (GAFuture _) | inl _ => True
  | _ => False
  end.
Proof.
  intros Ht. unfold get_answer_resume. rewrite bind_gets.
  destruct (futs st !! f) as [[|v|e]|]; try exact I.
  rewrite bind_gets, Ht. cbn [andb negb].
  destruct (py_ne_status v (b"QUEUED")) as [e|[|]]; try exact I.
  erewrite bind_inr by apply new_future_spec. rewrite bind_gets.
  destruct (trq _); [|exact I]. rewrite bind_modify. exact I.
Qed.

(** One [_query] answered by [+OK] outside a transaction. *)
Lemma run_query_ok (cmd : bytes) (rest : list bytes) (st : engine) :
  queue st = [] -> buffer st = [] -> in_bulk_reply (dec st) = false ->
  in_pubsub st = false -> in_transaction st = false ->
  Forall (fun c => (call_id c < next_id st)%nat) (pipelined_calls st) ->
  run_query (cmd :: rest) false false (b"+OK" ++ crlf) st =
  (inr (GAReturn (VStatus (b"OK"))),
   mkEngine [] (<[S (next_id st) := Done (VStatus (b"OK"))]> (futs st))
     (S (S (next_id st))) (pipelined_calls st) false false (trq st)
     (written st ++ request_bytes (cmd :: rest)) (dec st) [] (pubsub_replies st)).
Proof.
  intros Hq Hb Hbulk Hps Ht Hcs. unfold run_query.
  erewrite bind_inr by apply query_spec. cbn [fst snd].
  set (st1 := mkEngine _ _ _ _ _ _ _ _ _ _ _).
  erewrite bind_inr.
  2:{ apply (engine_data_received_line (b"+OK") (dec st) [EStatus (b"OK")]).
      - unfold st1. cbn. exact Hb.
      - reflexivity.
      - unfold st1. cbn [dec]. unfold decode_line. rewrite Hbulk. reflexivity.
      - apply dispatch_all_single_flat with (q := []); [reflexivity| |].
        + unfold st1; cbn. by rewrite Hq.
        + unfold st1; cbn. by rewrite lookup_insert_eq.
      - reflexivity. }
  rewrite (get_answer_resume_return _ _ _ (VStatus (b"OK"))).
  - unfold st1; unfold_setters.
    cbn [queue futs next_id pipelined_calls in_pubsub in_transaction trq written
         dec buffer pubsub_replies reply_fstate].
    rewrite ?Hq, ?Hps, ?Ht.
    rewrite (filter_fresh_call _ (next_id st)) by (exact Hcs || reflexivity).
    by rewrite insert_insert_eq.
  - cbn. by rewrite lookup_insert_eq.
  - cbn. by rewrite Ht.
  - cbn. apply existsb_snoc. cbn. apply Nat.eqb_refl.
Qed.

(** [_shuffle_protocols] rotates the pool by one more place. *)
Lemma shuffle_rotate (l : list engine) (j : nat) :
  (j < length l)%nat ->
  shuffle_protocols (skipn j l ++ firstn j l) = skipn (S j) l ++ firstn (S j) l.
Proof.
  intros Hj. destruct (lookup_lt_is_Some_2 l j Hj) as [x Hx].
  unfold shuffle_protocols. rewrite (drop_S l x j Hx), (take_S_r l j x Hx).
  cbn. rewrite ?drop_0, ?take_0, ?app_nil_r, <- ?app_assoc. reflexivity.
Qed.

Lemma pool_getattr_fst (l : list engine) :
  fst (pool_getattr true l) = shuffle_protocols l.
Proof.
  unfold pool_getattr, get_free_protocol. cbn.
  by destruct (List.find (fun p => negb (in_use p)) (shuffle_protocols l)).
Qed.

Lemma iter_pool_getattr (l : list engine) (k : nat) :
  l <> [] ->
  Nat.iter k (fun l => fst (pool_getattr true l)) l =
  skipn (k mod length l) l ++ firstn (k mod length l) l.
Proof.
  intros Hl. assert (Hn : length l <> 0%nat) by (destruct l; [contradiction|discriminate]).
  induction k as [|k IH].
  - rewrite Nat.Div0.mod_0_l, drop_0, take_0, app_nil_r. reflexivity.
  - rewrite Nat.iter_succ, IH, pool_getattr_fst, shuffle_rotate
      by (apply Nat.mod_upper_bound, Hn).
    assert (Hs : (S k mod length l = S (k mod length l) mod length l)%nat).
    { rewrite <- (Nat.add_1_r k), <- (Nat.add_1_r (k mod length l)).
      symmetry. apply Nat.Div0.add_mod_idemp_l. }
    pose proof (Nat.mod_upper_bound k (length l) Hn).
    destruct (decide (S (k mod length l) = length l)) as [E|E].
    + rewrite Hs, E, Nat.Div0.mod_same, drop_all, (take_ge l (length l)) by lia.
      rewrite drop_0, take_0, app_nil_r. reflexivity.
    + rewrite Hs, (Nat.mod_small (S (k mod length l)) (length l)) by lia.
      reflexivity.
Qed.


(** A multi-bulk header line [*n\r\n] on an empty buffer. *)
Lemma multi_header_decodes (p : pstate) (n : nat) :
  in_bulk_reply p = false ->
  data_received p [] (b"*" ++ decimal n ++ crlf) = DOk p [] [EMulti (Z.of_nat n)].
Proof.
  intros Hp. rewrite app_assoc, data_received_line.
  2:{ apply split_crlf_no_cr. constructor; [reflexivity|apply decimal_no_cr]. }
  change (b"*" ++ decimal n) with (x2a :: decimal n).
  unfold decode_line. rewrite Hp. cbn [line_received].
  change (byte_is x2a 43) with false. change (byte_is x2a 45) with false.
  change (byte_is x2a 36) with false. change (byte_is x2a 42) with true. cbv iota.
  by rewrite py_int_decimal.
Qed.

(** The WATCH loop of [multi] when every WATCH is answered [+OK]. *)
Lemma watch_keys_ok (keys rs : list bytes) (st : engine) :
  queue st = [] -> buffer st = [] -> in_bulk_reply (dec st) = false ->
  in_pubsub st = false -> in_transaction st = false ->
  Forall (fun c => (call_id c < next_id st)%nat) (pipelined_calls st) ->
  exists m n, watch_keys keys (map (fun _ => b"+OK" ++ crlf) keys ++ rs) st =
    (inr (Some rs),
     mkEngine [] m n (pipelined_calls st) false false (trq st)
       (written st ++ concat (map (fun k => request_bytes [b"watch"; k]) keys))
       (dec st) [] (pubsub_replies st)) /\ (next_id st <= n)%nat.
Proof.
  revert st. induction keys as [|k keys IH]; intros st Hq Hb Hbulk Hps Ht Hcs.
  - exists (futs st), (next_id st). split; [|lia].
    destruct st; cbn in *; subst. by rewrite app_nil_r.
  - cbn [watch_keys map app next_reply].
    erewrite bind_inr by (apply run_query_ok; assumption).
    cbv beta iota. erewrite bind_inr by reflexivity.
    set (st1 := mkEngine [] _ _ _ _ _ _ _ _ _ _).
    destruct (IH st1) as [m [n [Heq Hn]]]; try reflexivity; [exact Hbulk| |].
    { eapply Forall_impl; [exact Hcs|]. cbn. intros c Hc. lia. }
    exists m, n. rewrite Heq. split; [|cbn in Hn; lia].
    cbn. by rewrite <- app_assoc.
Qed.


(* ------------------------------------------------------------------ *)
(** ** EXEC *)

Lemma lookup_map {A B} (f : A -> B) (l : list A) (i : nat) :
  map f l !! i = option_map f (l !! i).
Proof. revert i. induction l as [|x l IH]; intros [|i]; cbn; auto. Qed.

(** [_handle_multi_bulk_reply] outside pub/sub. *)
Lemma handle_multi_bulk_plain (c : Z) (st : engine) (f : nat) (q : list nat) :
  in_pubsub st = false -> queue st = f :: q -> futs st !! f = Some Pending ->
  exists m', handle_multi_bulk_reply c st =
    (inr tt, set_queue (seq (next_id st) (Z.to_nat c) ++ q)
       (set_next_id (next_id st + Z.to_nat c) (set_futs m' st))) /\
    forall g, m' !! g =
      if decide (next_id st <= g < next_id st + Z.to_nat c)%nat then Some Pending
      else (<[f := Done (VMulti c (seq (next_id st) (Z.to_nat c)))]> (futs st)) !! g.
Proof.
  intros Hps Hq Hf. unfold handle_multi_bulk_reply. rewrite bind_gets. cbv zeta.
  rewrite bind_gets, Hps. cbv beta iota.
  erewrite bind_inr by (apply push_answer_spec; eassumption).
  set (st1 := set_futs _ (set_queue q st)).
  destruct (new_futures_spec (Z.to_nat c) st1) as [m' [Hn Hm']].
  exists m'. erewrite bind_inr by exact Hn. split.
  - unfold st1. destruct st; reflexivity.
  - exact Hm'.
Qed.

Lemma remove_call_spec (c : call) (st : engine) :
  c ∈ pipelined_calls st ->
  remove_call c st =
  (inr tt, set_calls (filter (fun c' => negb (Nat.eqb (call_id c') (call_id c)))
                        (pipelined_calls st)) st).
Proof.
  intros Hc. unfold remove_call. rewrite bind_gets.
  replace (existsb _ _) with true; [reflexivity|]. symmetry.
  apply existsb_exists. exists c. split; [by apply list_elem_of_In|apply Nat.eqb_refl].
Qed.

Lemma elem_of_remove_call (c c' : call) (cs : list call) :
  c' ∈ filter (fun c'' => negb (Nat.eqb (call_id c'') (call_id c))) cs <->
  c' ∈ cs /\ call_id c <> call_id c'.
Proof.
  rewrite list_elem_of_filter.
  destruct (Nat.eqb (call_id c') (call_id c)) eqn:E; cbn.
  - apply Nat.eqb_eq in E. split; [tauto|]. intros [_ H]. congruence.
  - apply Nat.eqb_neq in E. split; [intros [_ H]; split; [exact H|congruence]|].
    intros [H _]. split; [exact I|exact H].
Qed.

(** The [i]-th [queue.get()] of a multi-bulk reply whose items (futures
    [n], [n + 1], ...) are all done. *)
Lemma handle_item_seq (m : gmap nat fstate) (n : nat) (vs : list value) (i : nat)
  (v : value) :
  (forall t w, vs !! t = Some w -> m !! (n + t)%nat = Some (Done w)) ->
  vs !! i = Some v ->
  handle_item m (seq n (length vs)) i = Some v.
Proof.
  intros Hm Hv. unfold handle_item.
  assert (Hi : (i < length vs)%nat) by (eapply lookup_lt_Some; exact Hv).
  replace (forallb _ _) with true.
  2:{ symmetry. apply forallb_forall. intros f Hf.
      assert (Hs : In f (seq n (length vs))).
      { rewrite <- (firstn_skipn (S i) (seq n (length vs))).
        apply in_or_app. left. exact Hf. }
      apply in_seq in Hs as [H1 H2].
      destruct (lookup_lt_is_Some_2 vs (f - n)) as [w Hw]; [lia|].
      specialize (Hm _ _ Hw). replace (n + (f - n))%nat with f in Hm by lia.
      by rewrite Hm. }
  rewrite lookup_seq_lt by exact Hi. by rewrite (Hm i v Hv).
Qed.

(** The [for f in multi_bulk_reply] loop of [_exec] when every item is
    done and every saved entry has no post-processor: entry [j] gets
    item [i + j], its call is removed. *)
Lemma exec_loop_spec (n : nat) (vs : list value) (ents : list (nat * call * value))
  (i : nat) (st : engine) :
  (forall t w, vs !! t = Some w -> futs st !! (n + t)%nat = Some (Done w)) ->
  (forall j e, ents !! j = Some e -> vs !! (i + j)%nat = Some e.2) ->
  NoDup (map (fun e => e.1.1) ents) ->
  Forall (fun e => (e.1.1 < n)%nat /\ futs st !! e.1.1 = Some Pending) ents ->
  NoDup (map (fun e => call_id e.1.2) ents) ->
  Forall (fun e => e.1.2 ∈ pipelined_calls st) ents ->
  exists m cs,
    exec_loop (length ents) (seq n (length vs)) i
      (Some (map (fun e => (e.1.1, None, e.1.2)) ents)) st
    = (inr ExecDone, set_calls cs (set_futs m st)) /\
    (forall e, e ∈ ents -> m !! e.1.1 = Some (Done e.2)) /\
    (forall g, g ∉ map (fun e => e.1.1) ents -> m !! g = futs st !! g) /\
    (forall c', c' ∈ cs <->
       c' ∈ pipelined_calls st /\ Forall (fun e => call_id e.1.2 <> call_id c') ents).
Proof.
  revert i st. induction ents as [|e ents IH]; intros i st Hm Hents Hnd Hp Hndc Hc.
  - exists (futs st), (pipelined_calls st). split; [|split; [|split]].
    + by destruct st.
    + intros e He. by apply elem_of_nil in He.
    + reflexivity.
    + intros c'. split; [intros H; split; [exact H|constructor]|tauto].
  - destruct e as [[f c] v]. cbn [fst snd] in *.
    cbn [map] in Hnd, Hndc. apply NoDup_cons in Hnd as [Hnin Hnd].
    apply NoDup_cons in Hndc as [Hninc Hndc].
    apply Forall_cons in Hp as [[Hfn Hf] Hp]. apply Forall_cons in Hc as [Hcin Hc].
    cbn [fst snd] in Hfn, Hf, Hcin, Hnin, Hninc.
    cbn [length map exec_loop]. rewrite bind_gets.
    assert (Hv : vs !! i = Some v).
    { rewrite <- (Nat.add_0_r i). exact (Hents 0%nat _ eq_refl). }
    rewrite (handle_item_seq _ n vs i v Hm Hv). cbv beta iota.
    erewrite bind_inr by (apply remove_call_spec; exact Hcin).
    erewrite bind_inr by (apply settle_pending; exact Hf).
    cbn [fst snd].
    set (cs1 := filter (fun c' => negb (Nat.eqb (call_id c') (call_id c)))
                  (pipelined_calls st)).
    set (st1 := set_futs (<[f := Done v]> (futs (set_calls cs1 st))) (set_calls cs1 st)).
    destruct (IH (S i) st1) as [m [cs [Heq [Hdone [Hother Hcs]]]]].
    + intros t w Hw. unfold st1; cbn [futs set_futs set_calls].
      rewrite lookup_insert_ne by lia. exact (Hm t w Hw).
    + intros j e He. replace (S i + j)%nat with (i + S j)%nat by lia.
      exact (Hents (S j) e He).
    + exact Hnd.
    + apply Forall_forall. intros e' He'.
      pose proof (proj1 (Forall_forall _ _) Hp e' He') as [H1 H2].
      split; [exact H1|]. unfold st1; cbn [futs set_futs set_calls].
      rewrite lookup_insert_ne; [exact H2|].
      intros Heq. apply Hnin. rewrite Heq. apply list_elem_of_In.
      apply (in_map (fun e : nat * call * value => e.1.1)). by apply list_elem_of_In.
    + exact Hndc.
    + apply Forall_forall. intros e' He'.
      pose proof (proj1 (Forall_forall _ _) Hc e' He') as H1.
      unfold st1; cbn [pipelined_calls set_futs set_calls]. unfold cs1.
      apply elem_of_remove_call. split; [exact H1|].
      intros Heq. apply Hninc. rewrite Heq.
      apply list_elem_of_In.
      apply (in_map (fun e : nat * call * value => call_id e.1.2)).
      by apply list_elem_of_In.
    + exists m, cs. split; [|split; [|split]].
      * etransitivity; [exact Heq|]. unfold st1. by destruct st.
      * intros e He. apply elem_of_cons in He as [->|He]; [|by apply Hdone].
        cbn [fst snd]. rewrite Hother by exact Hnin.
        unfold st1; cbn [futs set_futs set_calls]. by rewrite lookup_insert_eq.
      * intros g Hg. cbn [map] in Hg. apply not_elem_of_cons in Hg as [Hgf Hg].
        rewrite Hother by exact Hg. unfold st1; cbn [futs set_futs set_calls].
        by rewrite lookup_insert_ne by congruence.
      * intros c'. rewrite Hcs. unfold st1; cbn [pipelined_calls set_futs set_calls].
        unfold cs1. rewrite elem_of_remove_call, Forall_cons. cbn [fst snd]. tauto.
Qed.

(* ------------------------------------------------------------------ *)
(** ** Nested multi-bulk frames *)

Lemma frame_ind' (P : frame -> Prop) :
  (forall ev, P (FLeaf ev)) ->
  (forall items, Forall P items -> P (FMulti items)) ->
  forall fr, P fr.
Proof.
  intros HL HM. fix IH 1. intros [ev|items]; [apply HL|apply HM].
  induction items as [|x items IHi]; constructor; [apply IH|exact IHi].
Qed.

Lemma items_resolved_lookup (R : frame -> nat -> Prop) (items : list frame) (g : nat) :
  items_resolved R items g <->
  forall i x, items !! i = Some x -> R x (g + i)%nat.
Proof.
  revert g. induction items as [|x items IH]; intros g; cbn [items_resolved].
  - split; [intros _ i x Hx; by rewrite lookup_nil in Hx|done].
  - rewrite IH. split.
    + intros [Hx Hr] [|i] y Hy; cbn in Hy.
      * injection Hy as <-. by rewrite Nat.add_0_r.
      * replace (g + S i)%nat with (S g + i)%nat by lia. by apply Hr.
    + intros H. split; [rewrite <- (Nat.add_0_r g); by apply (H 0%nat)|].
      intros i y Hy. replace (S g + i)%nat with (g + S i)%nat by lia. by apply H.
Qed.

Lemma frame_resolved_mono (m m' : gmap nat fstate) (lo hi lo' hi' : nat) (fr : frame) :
  (lo' <= lo)%nat -> (hi <= hi')%nat ->
  (forall g, (lo <= g < hi)%nat -> m' !! g = m !! g) ->
  forall f, m' !! f = m !! f ->
  frame_resolved m lo hi fr f -> frame_resolved m' lo' hi' fr f.
Proof.
  intros Hlo Hhi Hag. induction fr as [ev|items IH] using frame_ind';
    intros f Hf; cbn [frame_resolved].
  - by rewrite Hf.
  - intros [base [Hb1 [Hb2 [Hm Hr]]]]. exists base.
    split; [lia|]. split; [lia|]. split; [by rewrite Hf|].
    rewrite items_resolved_lookup in Hr |- *. intros i x Hx.
    pose proof (lookup_lt_Some _ _ _ Hx) as Hi.
    apply (proj1 (Forall_lookup _ _) IH i x Hx); [apply Hag; lia|].
    by apply Hr.
Qed.

Lemma frame_events_nonempty (fr : frame) : (1 <= length (frame_events fr))%nat.
Proof. destruct fr; cbn; lia. Qed.

(** A leaf completes the head future and pushes nothing. *)
Lemma dispatch_leaf (ev : event) (st : engine) (f : nat) (q : list nat) :
  multi_children ev = 0%nat -> in_pubsub st = false ->
  queue st = f :: q -> futs st !! f = Some Pending ->
  exists st1, dispatch ev st = (inr tt, st1) /\ queue st1 = q /\
    in_pubsub st1 = false /\ next_id st1 = next_id st /\
    forall g, futs st1 !! g = (<[f := reply_fstate ev 0]> (futs st)) !! g.
Proof.
  intros Hk Hps Hq Hf. destruct (flat ev) eqn:Hfl.
  - eexists. split; [exact (dispatch_flat_spec ev st f q Hfl Hq Hf)|].
    unfold_setters. cbn. split; [reflexivity|]. split; [exact Hps|]. done.
  - destruct ev as [| | | | |c]; try discriminate. cbn in Hk.
    destruct (handle_multi_bulk_plain c st f q Hps Hq Hf) as [m' [Hh Hm']].
    eexists. split; [exact Hh|]. rewrite Hk in Hm' |- *. unfold_setters; cbn.
    split; [reflexivity|]. split; [exact Hps|]. split; [lia|].
    intros g. rewrite Hm'. case_decide; [lia|]. cbn [reply_fstate]. by rewrite Hk.
Qed.

(** The replies of [k] complete frames complete the [k] futures at the head
    of [_queue], each with its frame's answer, nested items included. *)
Lemma dispatch_frames (N : nat) (frs : list frame) (fs q : list nat) (st : engine) :
  (length (concat (map frame_events frs)) <= N)%nat ->
  in_pubsub st = false -> queue st = fs ++ q -> length fs = length frs ->
  NoDup fs -> Forall (fun f => (f < next_id st)%nat /\ futs st !! f = Some Pending) fs ->
  Forall (fun fr => frame_ok fr = true) frs ->
  exists st', dispatch_all (concat (map frame_events frs)) st = (inr tt, st') /\
    queue st' = q /\ in_pubsub st' = false /\ (next_id st <= next_id st')%nat /\
    (forall i fr f, frs !! i = Some fr -> fs !! i = Some f ->
       frame_resolved (futs st') (next_id st) (next_id st') fr f) /\
    (forall g, g ∉ fs -> (g < next_id st)%nat -> futs st' !! g = futs st !! g).
Proof.
  revert frs fs q st. induction N as [N IHN] using lt_wf_ind.
  intros frs fs q st HN Hps Hq Hl Hnd Hp Hok.
  destruct frs as [|fr frs].
  - destruct fs; [|discriminate]. exists st. cbn [concat map dispatch_all].
    split; [reflexivity|]. split; [exact Hq|]. split; [exact Hps|]. split; [lia|].
    split; [intros i fr f H; by rewrite lookup_nil in H|done].
  - destruct fs as [|f fs]; [discriminate|]. cbn in Hl. injection Hl as Hl.
    apply NoDup_cons in Hnd as [Hnin Hnd].
    apply Forall_cons in Hp as [[Hflt Hfp] Hp]. apply Forall_cons in Hok as [Hfok Hok].
    cbn [map concat] in HN |- *. rewrite length_app in HN.
    pose proof (frame_events_nonempty fr) as Hne.
    rewrite dispatch_all_app.
    destruct fr as [ev|items].
    + (* a leaf *)
      cbn [frame_ok] in Hfok. apply Nat.eqb_eq in Hfok.
      destruct (dispatch_leaf ev st f (fs ++ q) Hfok Hps Hq Hfp)
        as [st1 [Hd [Hq1 [Hps1 [Hn1 Hm1]]]]].
      destruct (IHN (length (concat (map frame_events frs)))
                  ltac:(cbn in HN; lia) frs fs q st1) as
        [st2 [Hd2 [Hq2 [Hps2 [Hn2 [Hr2 Ho2]]]]]];
        [lia|exact Hps1|exact Hq1|exact Hl|exact Hnd| |exact Hok|].
      { apply Forall_forall. intros g Hg.
        destruct (proj1 (Forall_forall _ _) Hp g Hg) as [H1 H2].
        rewrite Hn1, Hm1, lookup_insert_ne by (intros ->; contradiction).
        split; [lia|exact H2]. }
      exists st2. cbn [frame_events dispatch_all].
      unfold bind at 1. unfold bind at 1. rewrite Hd. cbn.
      rewrite Hd2. cbn. split; [reflexivity|].
      split; [exact Hq2|]. split; [exact Hps2|]. split; [lia|]. split.
      * intros [|i] fr g Hfr Hg; cbn in Hfr, Hg.
        -- injection Hfr as <-. injection Hg as <-. cbn [frame_resolved].
           rewrite Ho2 by (exact Hnin || (rewrite Hn1; lia)). by rewrite Hm1, lookup_insert_eq.
        -- rewrite <- Hn1. by apply (Hr2 i).
      * intros g Hg Hlt. apply not_elem_of_cons in Hg as [Hgf Hg].
        rewrite Ho2 by (exact Hg || (rewrite Hn1; lia)). rewrite Hm1.
        by rewrite lookup_insert_ne by congruence.
    + (* a multi-bulk header and its items *)
      set (k := length items).
      cbn [frame_ok] in Hfok.
      destruct (handle_multi_bulk_plain (Z.of_nat k) st f (fs ++ q) Hps Hq Hfp)
        as [m' [Hh Hm']].
      rewrite Nat2Z.id in Hh, Hm'.
      set (n := next_id st) in *.
      set (st1 := set_queue _ _) in Hh.
      cbn [frame_events length] in HN. cbn [frame_events].
      destruct (IHN (length (concat (map frame_events items))) ltac:(lia)
                  items (seq n k) (fs ++ q) st1) as
        [st2 [Hd2 [Hq2 [Hps2 [Hn2 [Hr2 Ho2]]]]]];
        [lia|exact Hps|reflexivity|by rewrite length_seq|apply NoDup_seq| |
         by apply Forall_forall; intros x Hx; apply (proj1 (forallb_forall _ _) Hfok),
            list_elem_of_In|].
      { apply Forall_forall. intros g Hg. apply list_elem_of_In, in_seq in Hg.
        unfold st1; unfold_setters; cbn. split; [lia|].
        rewrite Hm'. case_decide; [reflexivity|lia]. }
      assert (Hn1 : next_id st1 = (n + k)%nat) by reflexivity.
      assert (Hf1 : forall g, g ∉ seq n k -> (g < n + k)%nat ->
                futs st2 !! g = m' !! g) by (intros g ? ?; rewrite Ho2 by (assumption || lia); reflexivity).
      destruct (IHN (length (concat (map frame_events frs))) ltac:(lia)
                  frs fs q st2) as
        [st3 [Hd3 [Hq3 [Hps3 [Hn3 [Hr3 Ho3]]]]]];
        [lia|exact Hps2|exact Hq2|exact Hl|exact Hnd| |exact Hok|].
      { apply Forall_forall. intros g Hg.
        destruct (proj1 (Forall_forall _ _) Hp g Hg) as [H1 H2].
        split; [lia|]. rewrite Hf1; [|intros Hs; apply list_elem_of_In, in_seq in Hs; lia|lia].
        rewrite Hm'. case_decide; [lia|].
        rewrite lookup_insert_ne by (intros ->; contradiction). exact H2. }
      exists st3. cbn [dispatch_all dispatch]. fold k. unfold bind.
      rewrite Hh. cbn beta iota. rewrite Hd2. cbn beta iota. rewrite Hd3.
      split; [reflexivity|].
      split; [exact Hq3|]. split; [exact Hps3|]. split; [lia|]. split.
      * intros [|i] fr g Hfr Hg; cbn in Hfr, Hg.
        -- injection Hfr as <-. injection Hg as <-. cbn [frame_resolved].
           exists n. fold k. split; [lia|]. split; [lia|]. split.
           ++ rewrite Ho3 by (try exact Hnin; lia).
              rewrite Hf1; [|intros Hs; apply list_elem_of_In, in_seq in Hs; lia|lia].
              rewrite Hm'. case_decide; [lia|]. by rewrite lookup_insert_eq.
           ++ apply items_resolved_lookup. intros i x Hx.
              pose proof (lookup_lt_Some _ _ _ Hx) as Hi.
              apply (frame_resolved_mono (futs st2) _ (n + k) (next_id st2)).
              ** lia.
              ** lia.
              ** intros g Hg. apply Ho3; [|lia].
                 intros Hgin. destruct (proj1 (Forall_forall _ _) Hp g Hgin). lia.
              ** apply Ho3; [|lia].
                 intros Hgin. destruct (proj1 (Forall_forall _ _) Hp _ Hgin). lia.
              ** apply (Hr2 i x); [exact Hx|]. by rewrite lookup_seq_lt.
        -- apply (frame_resolved_mono (futs st3) (futs st3) (next_id st2) (next_id st3));
             [lia|lia|done|done|by apply (Hr3 i)].
      * intros g Hg Hlt. apply not_elem_of_cons in Hg as [Hgf Hg].
        rewrite Ho3 by (exact Hg || lia).
        rewrite Hf1; [|intros Hs; apply list_elem_of_In, in_seq in Hs; lia|lia].
        rewrite Hm'. case_decide; [lia|]. by rewrite lookup_insert_ne by congruence.
Qed.

(* ------------------------------------------------------------------ *)
(** ** One reply, one answer *)

(** Any single reply completes the head future of [_queue] (outside
    pub/sub), touching no older future, call or flag. *)
Lemma dispatch_single_head (ev : event) (st : engine) (f : nat) (q : list nat) :
  in_pubsub st = false -> queue st = f :: q -> futs st !! f = Some Pending ->
  (f < next_id st)%nat ->
  exists st', dispatch_all [ev] st = (inr tt, st') /\
    futs st' !! f = Some (reply_fstate ev (next_id st)) /\
    (forall g, g <> f -> (g < next_id st)%nat -> futs st' !! g = futs st !! g) /\
    call_state st' = call_state st.
Proof.
  intros Hps Hq Hf Hlt. destruct (flat ev) eqn:Hfl.
  - eexists. split; [exact (dispatch_all_single_flat ev st f q Hfl Hq Hf)|].
    unfold_setters. cbn [futs]. split.
    + rewrite lookup_insert_eq. by destruct ev.
    + split; [intros g Hg _; by rewrite lookup_insert_ne by congruence|reflexivity].
  - destruct ev as [| | | | |c]; try discriminate.
    destruct (handle_multi_bulk_plain c st f q Hps Hq Hf) as [m' [Hh Hm']].
    eexists. split.
    { cbn [dispatch_all dispatch]. erewrite bind_inr by exact Hh. reflexivity. }
    unfold_setters. cbn [futs call_state pipelined_calls in_pubsub in_transaction trq written].
    split; [|split].
    + rewrite Hm'. case_decide; [lia|]. by rewrite lookup_insert_eq.
    + intros g Hg Hg'. rewrite Hm'. case_decide; [lia|].
      by rewrite lookup_insert_ne by congruence.
    + reflexivity.
Qed.

(** Outside a transaction the rest of [_get_answer] changes no future, no
    flag, nothing written and not the transaction queue. *)
Lemma get_answer_resume_outside (pp : option postproc) (c : call) (f : nat)
  (st : engine) :
  in_transaction st = false ->
  futs (snd (get_answer_resume false pp c f st)) = futs st /\
  trq (snd (get_answer_resume false pp c f st)) = trq st /\
  written (snd (get_answer_resume false pp c f st)) = written st /\
  in_transaction (snd (get_answer_resume false pp c f st)) = false.
Proof.
  intros Ht. unfold get_answer_resume, remove_call. rewrite bind_gets.
  destruct (futs st !! f) as [[|v|e]|]; cbn [raise ret snd]; try (by rewrite Ht).
  rewrite bind_gets, Ht. cbn [andb negb].
  destruct pp as [p|]; [cbn; rewrite ?Ht; repeat split|].
  cbv [bind gets modify ret raise].
  destruct (existsb _ _); cbn; rewrite ?Ht; repeat split.
Qed.

(** [assert result == StatusReply('OK')] only raises or returns. *)
Lemma discard_finish_state (v : value) (st : engine) :
  snd (discard_finish v st) = st.
Proof. unfold discard_finish. by destruct (py_eq_status v (b"OK")) as [e|[|]]. Qed.

(* ================================================================== *)
(** * Claims *)

(** C6: the decoder is chunking-invariant. Feeding any byte string (in
    particular the concatenation of any sequence of RESP frames) to
    [data_received] one byte per call gives the same replies, the same
    final parser state and buffer, and the same exception if one is
    raised, as feeding it in a single call. *)
Theorem decoder_chunking_invariant (bs : bytes) :
  feed pstate0 [] (map (fun c => [c]) bs) = feed pstate0 [] [bs].
Proof.
  destruct bs as [|a bs]; [reflexivity|].
  rewrite feed_bytewise, feed_single. reflexivity.
Qed.

(** C5: [Connection.__getattr__] for a command rotates the protocol list by
    one ([l[1:] + l[:1]]), never returns a protocol whose [in_use] is set,
    and raises the "all connections in use" [RedisException] exactly when
    every protocol of the pool is in use. *)
Theorem pool_never_returns_busy_engine (l : list engine) :
  fst (pool_getattr true l) = shuffle_protocols l /\
  (forall p, snd (pool_getattr true l) = inr p -> In p l /\ in_use p = false) /\
  (snd (pool_getattr true l) = inl PoolInUseError <->
   Forall (fun p => in_use p = true) l).
Proof.
  unfold pool_getattr, get_free_protocol. simpl negb. cbv iota.
  destruct (List.find (fun p => negb (in_use p)) (shuffle_protocols l))
    as [p|] eqn:E; simpl.
  - apply find_some in E as [Hin Hfree].
    split; [reflexivity|]. split.
    + intros p' [= <-]. split; [by apply In_shuffle_protocols|].
      by destruct (in_use p).
    + split; [discriminate|]. intros HF.
      rewrite List.Forall_forall in HF.
      apply In_shuffle_protocols, HF in Hin. by rewrite Hin in Hfree.
  - split; [reflexivity|]. split; [discriminate|].
    split; [|reflexivity]. intros _. apply List.Forall_forall. intros p Hp.
    apply In_shuffle_protocols, (find_none _ _ E) in Hp.
    by destruct (in_use p).
Qed.

(** C10 (counterexample): [set('hello', 'world')] does not write
    [*3\r\n$3\r\nSET\r\n...]: the command name is sent as [b'set']. *)
Lemma set_request_not_uppercase :
  bytes_eqb (written (snd (redis_set (b"hello") (b"world") connection_made_state)))
    (b"*3" ++ crlf ++ b"$3" ++ crlf ++ b"SET" ++ crlf ++ b"$5" ++ crlf ++
     b"hello" ++ crlf ++ b"$5" ++ crlf ++ b"world" ++ crlf) = false.
Proof. vm_compute. reflexivity. Qed.

(** C1 (failing input): future 7 waits in the transaction queue; the
    server answers EXEC with [*-1\r\n]; [_exec] completes and future 7 is
    still pending, not failed. *)
Lemma exec_nil_leaves_stored_future_pending :
  trq engine_in_multi = Some [(7%nat, None, call_set6)] /\
  futs (snd (exec_scenario (b"*-1" ++ crlf) engine_in_multi)) !! 7%nat
    = Some Pending.
Proof. split; vm_compute; reflexivity. Qed.

(** C3 (counterexample): [connection_lost] fails future 9 of the reply
    queue but leaves future 7 of the transaction queue pending. *)
Lemma connection_lost_skips_transaction_queue :
  trq engine_multi_waiting = Some [(7%nat, None, call_set6)] /\
  futs (snd (connection_lost engine_multi_waiting)) !! 9%nat
    = Some (Failed ConnectionLostError) /\
  futs (snd (connection_lost engine_multi_waiting)) !! 7%nat = Some Pending.
Proof. split; [|split]; vm_compute; reflexivity. Qed.


(** C7 (counterexample): a line [?x\r\n] is dropped: no exception, the
    waiting future 3 is not failed and the engine is left as it was. *)
Lemma unknown_prefix_line_is_dropped :
  engine_data_received (b"?x" ++ crlf) engine_one_pending
    = (inr tt, engine_one_pending).
Proof. vm_compute. reflexivity. Qed.

(** C8 (counterexample): discarding with future 7 queued and the server
    answering [+OK\r\n]: the discard completes and future 7 stays pending
    (it is not failed). *)
Lemma discard_leaves_queued_future_pending :
  fst (discard_scenario (b"+OK" ++ crlf) engine_in_multi) = inr true /\
  futs (snd (discard_scenario (b"+OK" ++ crlf) engine_in_multi)) !! 7%nat
    = Some Pending.
Proof. split; vm_compute; reflexivity. Qed.

(** C9 (code bug): when the server answers a command with an error
    reply, [_get_answer] raises before [self._pipelined_calls.remove(call)],
    so the call stays in the set; for a blocking command the engine then
    reports [in_use] for good. *)
Lemma error_reply_keeps_pipelined_call :
  run_query [b"get"; b"k"] false false (b"-ERR x" ++ crlf) connection_made_state
    = (inl (ReplyError (b"ERR x")),
       snd (run_query [b"get"; b"k"] false false (b"-ERR x" ++ crlf)
              connection_made_state)) /\
  pipelined_calls (snd (run_query [b"get"; b"k"] false false
                          (b"-ERR x" ++ crlf) connection_made_state))
    = [{| call_id := 0; call_cmd := b"get"; call_blocking := false |}] /\
  in_use (snd (run_query [b"blpop"; b"q"; b"0"] true false
                 (b"-WRONGTYPE x" ++ crlf) connection_made_state)) = true.
Proof. split; [|split]; vm_compute; reflexivity. Qed.

(** C2: outside pub/sub mode, every decoded reply pops the head future of
    [_queue] and completes it with that reply; a [MultiBulk(N)] (N >= 0)
    also puts [N] fresh futures, in order, at the head of [_queue], so the
    next [N] frames complete them in wire order: the i-th child future
    gets the i-th frame's reply, and when that frame is itself a
    multi-bulk its own items complete its item futures, at any depth. *)
Theorem dispatch_pops_head_and_pushes_children (ev : event) (st : engine)
  (f : nat) (q : list nat) :
  in_pubsub st = false -> queue st = f :: q -> futs st !! f = Some Pending ->
  (f < next_id st)%nat ->
  exists st', dispatch ev st = (inr tt, st') /\
    futs st' !! f = Some (reply_fstate ev (next_id st)) /\
    queue st' = seq (next_id st) (multi_children ev) ++ q /\
    (forall i, (i < multi_children ev)%nat ->
       futs st' !! (next_id st + i)%nat = Some Pending) /\
    (forall frs, length frs = multi_children ev ->
       Forall (fun fr => frame_ok fr = true) frs ->
       exists st'', dispatch_all (concat (map frame_events frs)) st' = (inr tt, st'') /\
         queue st'' = q /\
         forall i fr, frs !! i = Some fr ->
           frame_resolved (futs st'') (next_id st') (next_id st'') fr (next_id st + i)).
Proof.
  intros Hps Hq Hf Hlt.
  destruct (flat ev) eqn:Hflat.
  - exists (set_futs (<[f := reply_fstate ev 0]> (futs st)) (set_queue q st)).
    assert (Hk : multi_children ev = 0%nat) by (destruct ev; done).
    assert (Hr : reply_fstate ev (next_id st) = reply_fstate ev 0)
      by (destruct ev; done).
    rewrite Hk, Hr. split; [by apply dispatch_flat_spec|].
    split; [unfold_setters; cbn [futs]; by rewrite lookup_insert_eq|].
    split; [reflexivity|]. split; [lia|].
    intros frs Hl _. destruct frs; [|discriminate].
    eexists. split; [reflexivity|]. split; [reflexivity|].
    intros i fr He. by rewrite lookup_nil in He.
  - destruct ev as [| | | | |c]; try discriminate. clear Hflat.
    unfold dispatch, handle_multi_bulk_reply. cbn [multi_children reply_fstate].
    set (n := next_id st). set (k := Z.to_nat c).
    unfold bind at 1, gets at 1. unfold bind at 1, gets at 1. rewrite Hps.
    unfold bind at 1.
    rewrite (push_answer_spec _ _ f q Hq Hf). fold n.
    set (st1 := set_futs (<[f := Done (VMulti c (seq n k))]> (futs st))
                  (set_queue q st)).
    destruct (new_futures_spec k st1) as [m' [Hk Hm']].
    unfold bind at 1. rewrite Hk.
    assert (Hn1 : next_id st1 = n) by reflexivity. rewrite Hn1 in Hm' |- *.
    unfold modify.
    set (st' := set_queue (seq n k ++ queue (set_next_id (n + k) (set_futs m' st1)))
                  (set_next_id (n + k) (set_futs m' st1))).
    assert (Hq' : queue st' = seq n k ++ q) by reflexivity.
    assert (Hp' : forall i, (i < k)%nat -> futs st' !! (n + i)%nat = Some Pending).
    { intros i Hi. unfold st'; unfold_setters; cbn [futs].
      rewrite Hm'. case_decide; [reflexivity|lia]. }
    exists st'. split; [reflexivity|]. split.
    { unfold st'; unfold_setters; cbn [futs]. rewrite Hm'.
      case_decide; [lia|]. unfold st1; cbn [futs].
      by rewrite lookup_insert_eq. }
    split; [exact Hq'|]. split; [exact Hp'|].
    intros frs Hl Hok.
    assert (Hn' : next_id st' = (n + k)%nat) by reflexivity.
    destruct (dispatch_frames _ frs (seq n k) q st' (le_n _))
      as [st'' [Hd [Hq'' [_ [_ [Hr _]]]]]];
      [exact Hps|exact Hq'|by rewrite length_seq|apply NoDup_seq| |exact Hok|].
    { apply Forall_forall. intros g Hg. apply list_elem_of_In, in_seq in Hg.
      rewrite Hn'. split; [lia|].
      replace g with (n + (g - n))%nat by lia. apply Hp'. lia. }
    exists st''. split; [exact Hd|]. split; [exact Hq''|].
    intros i fr Hfr. apply (Hr i fr); [exact Hfr|].
    apply lookup_seq_lt. pose proof (lookup_lt_Some _ _ _ Hfr). lia.
Qed.


Lemma dispatch_pops_head_and_pushes_children_witness :
  in_pubsub engine_one_pending = false /\ queue engine_one_pending = [3%nat] /\
  futs engine_one_pending !! 3%nat = Some Pending /\
  (3 < next_id engine_one_pending)%nat /\
  exists st', dispatch (EMulti 2) engine_one_pending = (inr tt, st') /\
    futs st' !! 3%nat = Some (reply_fstate (EMulti 2) (next_id engine_one_pending)) /\
    queue st' = seq (next_id engine_one_pending) (multi_children (EMulti 2)) ++ [] /\
    (forall i, (i < multi_children (EMulti 2))%nat ->
       futs st' !! (next_id engine_one_pending + i)%nat = Some Pending) /\
    (forall frs, length frs = multi_children (EMulti 2) ->
       Forall (fun fr => frame_ok fr = true) frs ->
       exists st'', dispatch_all (concat (map frame_events frs)) st' = (inr tt, st'') /\
         queue st'' = [] /\
         forall i fr, frs !! i = Some fr ->
           frame_resolved (futs st'') (next_id st') (next_id st'') fr
             (next_id engine_one_pending + i)).
Proof.
  split; [reflexivity|]. split; [reflexivity|]. split; [reflexivity|].
  split; [cbn; lia|].
  apply (dispatch_pops_head_and_pushes_children (EMulti 2) engine_one_pending 3 []);
    [reflexivity|reflexivity|reflexivity|cbn; lia].
Defined.


(** C1 (code bug): [_exec] expects [None] for an aborted transaction
    ("We get None when a transaction failed") and would then raise
    [RedisException('Transaction failed.')], but [_handle_multi_bulk_reply]
    has no case for [*-1] (unlike [_handle_bulk_reply] for [$-1]) and
    hands it a [MultiBulkReply(-1)]. So when the server answers EXEC with
    [*-1\r\n], the loop over it runs zero times, [_exec] returns normally,
    empties [_transaction_response_queue] and leaves the transaction, and
    no future that existed before the call (in particular none stored in
    the transaction queue) changes state: none is failed. *)
Theorem exec_nil_reply_leaves_stored_futures (st : engine) (tq : list tentry) :
  in_transaction st = true -> trq st = Some tq -> in_pubsub st = false ->
  queue st = [] -> buffer st = [] -> dec st = pstate0 ->
  fst (exec_scenario (b"*-1" ++ crlf) st) = inr (Some ExecDone) /\
  trq (snd (exec_scenario (b"*-1" ++ crlf) st)) = Some [] /\
  in_transaction (snd (exec_scenario (b"*-1" ++ crlf) st)) = false /\
  forall g, (g < next_id st)%nat ->
    futs (snd (exec_scenario (b"*-1" ++ crlf) st)) !! g = futs st !! g.
Proof.
  intros Ht Htq Hps Hq Hb Hd.
  unfold exec_scenario. rewrite (bind_inr _ _ _ _ _ (exec_start_spec st Ht)).
  rewrite query_spec. cbn [snd queue futs next_id pipelined_calls in_pubsub
    in_transaction trq written dec buffer pubsub_replies set_trq].
  rewrite Hq, Hb, Hd, Ht, Hps, Htq. cbn [app].
  erewrite bind_inr.
  2:{ apply engine_data_received_line with (p := pstate0) (evs := [EMulti (-1)]);
      [reflexivity|reflexivity|reflexivity| |].
      - apply dispatch_nil_multi; [reflexivity|reflexivity|].
        cbn [futs set_dec set_buffer]. by rewrite lookup_insert_eq.
      - reflexivity. }
  erewrite bind_inr.
  2:{ apply get_answer_resume_return.
      - cbn [futs set_futs]. by rewrite lookup_insert_eq.
      - reflexivity.
      - cbn [pipelined_calls set_futs set_queue set_dec set_buffer].
        apply existsb_snoc. cbn [call_id]. by rewrite Nat.eqb_refl. }
  unfold exec_after. change (Z.to_nat (-1)) with 0%nat.
  cbn [exec_loop bind ret modify fst snd trq in_transaction futs set_trq
    set_in_transaction set_calls set_futs set_queue set_dec set_buffer].
  split; [reflexivity|]. split; [reflexivity|]. split; [reflexivity|].
  intros g Hg. rewrite lookup_insert_ne by lia. by rewrite lookup_insert_ne by lia.
Qed.

Lemma exec_nil_reply_leaves_stored_futures_witness :
  in_transaction engine_in_multi = true /\
  trq engine_in_multi = Some [(7%nat, None, call_set6)] /\
  in_pubsub engine_in_multi = false /\ queue engine_in_multi = [] /\
  buffer engine_in_multi = [] /\ dec engine_in_multi = pstate0 /\
  (fst (exec_scenario (b"*-1" ++ crlf) engine_in_multi) = inr (Some ExecDone) /\
   trq (snd (exec_scenario (b"*-1" ++ crlf) engine_in_multi)) = Some [] /\
   in_transaction (snd (exec_scenario (b"*-1" ++ crlf) engine_in_multi)) = false /\
   forall g, (g < next_id engine_in_multi)%nat ->
     futs (snd (exec_scenario (b"*-1" ++ crlf) engine_in_multi)) !! g
       = futs engine_in_multi !! g).
Proof.
  do 6 (split; [reflexivity|]).
  apply (exec_nil_reply_leaves_stored_futures engine_in_multi [(7%nat, None, call_set6)]);
    reflexivity.
Defined.

(** C7 (amended): a complete line whose first byte is none of [+ - $ * :]
    reaching [_line_received] is only printed: no exception is raised, no
    future is failed and the engine is left exactly as it was (there is no
    closed state to enter). *)
Theorem unknown_first_byte_leaves_engine_unchanged (c : byte) (rest : bytes)
  (st : engine) :
  buffer st = [] -> in_bulk_reply (dec st) = false ->
  split_crlf (c :: rest) = None ->
  byte_is c 43 || byte_is c 45 || byte_is c 36 || byte_is c 42 || byte_is c 58
    = false ->
  engine_data_received ((c :: rest) ++ crlf) st = (inr tt, st).
Proof.
  intros Hb Hbulk Hs Hc.
  apply engine_data_received_line with (p := dec st) (evs := []); try assumption.
  - unfold decode_line. rewrite Hbulk. cbn [line_received].
    repeat apply orb_false_elim in Hc as [Hc ?]. by repeat match goal with
      H : byte_is c _ = false |- _ => rewrite H end.
  - destruct st; cbn in Hb |- *. by subst.
Qed.

Lemma unknown_first_byte_leaves_engine_unchanged_witness :
  buffer engine_one_pending = [] /\ in_bulk_reply (dec engine_one_pending) = false /\
  split_crlf ("?"%byte :: b"x") = None /\
  byte_is "?"%byte 43 || byte_is "?"%byte 45 || byte_is "?"%byte 36 ||
    byte_is "?"%byte 42 || byte_is "?"%byte 58 = false /\
  engine_data_received (("?"%byte :: b"x") ++ crlf) engine_one_pending
    = (inr tt, engine_one_pending).
Proof.
  do 4 (split; [reflexivity|]).
  apply (unknown_first_byte_leaves_engine_unchanged "?"%byte (b"x") engine_one_pending);
    reflexivity.
Defined.

(** C8 (amended): [transaction.discard()] empties
    [_transaction_response_queue] and leaves the transaction before it
    sends [DISCARD] (written as [b'discard']), so whatever the server
    answers (an error, any value, or nothing yet) the protocol ends out of
    the transaction with an empty transaction queue. When the reply is in,
    it is checked against [StatusReply('OK')]: [+OK] returns, another
    status fails the assertion, an error reply raises it, and any other
    value raises [AttributeError] (from [StatusReply.__eq__]); in every
    case the futures that existed before the call, those of the commands
    queued in the transaction included, keep their state: none is failed. *)
Theorem discard_resets_transaction_without_failing (reply : bytes) (st : engine) :
  in_transaction st = true ->
  trq (snd (discard_scenario reply st)) = Some [] /\
  in_transaction (snd (discard_scenario reply st)) = false /\
  written (snd (discard_scenario reply st)) = written st ++ request_bytes [b"discard"] /\
  (in_pubsub st = false -> queue st = [] -> buffer st = [] -> dec st = pstate0 ->
   forall ev, data_received pstate0 [] reply = DOk pstate0 [] [ev] ->
     fst (discard_scenario reply st) =
       match ev with
       | EStatus s => if bytes_eqb s (b"OK") then inr true else inl AssertionError
       | EError s => inl (ReplyError s)
       | _ => inl AttributeError
       end /\
     forall g, (g < next_id st)%nat ->
       futs (snd (discard_scenario reply st)) !! g = futs st !! g).
Proof.
  intros Ht.
  unfold discard_scenario. rewrite (bind_inr _ _ _ _ _ (discard_start_spec st Ht)).
  cbn beta. rewrite query_spec. cbn [snd fst].
  set (c := {| call_id := next_id st; call_cmd := b"discard"; call_blocking := false |}).
  set (st1 := mkEngine _ _ _ _ _ _ _ _ _ _ _).
  assert (Hin1 : in_transaction st1 = false) by reflexivity.
  assert (Htq1 : trq st1 = Some []) by reflexivity.
  assert (Hw1 : written st1 = written st ++ request_bytes [b"discard"]) by reflexivity.
  split; [|split; [|split]].
  1-3: unfold bind at 1;
    pose proof (engine_data_received_keeps reply st1) as Hk; unfold call_state in Hk;
    destruct (engine_data_received reply st1) as [[e|[]] st2];
    cbn [snd] in Hk |- *; injection Hk as Hc2 Hps2 Hin2 Htq2 Hw2;
    [congruence|];
    unfold bind at 1;
    destruct (get_answer_resume_outside None c (S (next_id st)) st2 ltac:(congruence))
      as [_ [Htq3 [Hw3 Hin3]]];
    destruct (get_answer_resume false None c (S (next_id st)) st2)
      as [[e|[|v|f'|p v]] st3];
    cbn [snd] in Htq3, Hw3, Hin3; cbn [snd ret];
    try (first [rewrite Htq3; exact Htq2 | rewrite Hw3; exact Hw2 | exact Hin3]);
    unfold bind; destruct (discard_finish v st3) as [r st4] eqn:E4;
    pose proof (discard_finish_state v st3) as H4; rewrite E4 in H4; cbn in H4; subst st4;
    destruct r; cbn;
    first [rewrite Htq3; exact Htq2 | rewrite Hw3; exact Hw2 | exact Hin3].
  intros Hps Hq Hb Hd ev Hdec.
  destruct (dispatch_single_head ev st1 (S (next_id st)) [])
    as [st2 [Hd2 [Hf2 [Ho2 Hcs2]]]];
    [exact Hps|by unfold st1; cbn; rewrite Hq|by unfold st1; cbn; rewrite lookup_insert_eq|
     unfold st1; cbn; lia|].
  assert (Hdec1 : data_received (dec st1) (buffer st1) reply = DOk pstate0 [] [ev])
    by (unfold st1; cbn; rewrite Hd, Hb; exact Hdec).
  erewrite bind_inr by exact (engine_data_received_decode _ _ _ _ _ _ Hdec1 Hd2).
  set (st3 := dec_buffer_update pstate0 [] st2).
  assert (Hf3 : futs st3 !! S (next_id st) = Some (reply_fstate ev (next_id st1)))
    by exact Hf2.
  assert (Hin3 : in_transaction st3 = false).
  { unfold call_state in Hcs2. injection Hcs2 as _ _ H _ _. exact H. }
  assert (Hc3 : existsb (fun c' => Nat.eqb (call_id c') (call_id c)) (pipelined_calls st3) = true).
  { unfold call_state in Hcs2. injection Hcs2 as H _ _ _ _.
    change (pipelined_calls st3) with (pipelined_calls st2). rewrite H.
    apply existsb_snoc. apply Nat.eqb_refl. }
  assert (Hold : forall g, (g < next_id st)%nat -> futs st3 !! g = futs st !! g).
  { intros g Hg. change (futs st3) with (futs st2). rewrite Ho2 by (unfold st1; cbn; lia).
    unfold st1; cbn. by rewrite lookup_insert_ne by lia. }
  destruct ev as [s|s|z|s| |cnt]; cbn [reply_fstate] in Hf3.
  4-6: erewrite bind_inr
      by exact (get_answer_resume_return _ _ _ _ _ Hf3 ltac:(by rewrite Hin3) Hc3);
    cbv beta iota; unfold bind; cbn [discard_finish py_eq_status raise fst snd];
    split; [reflexivity|]; exact Hold.
  2: { assert (HE : get_answer_resume false None c (S (next_id st)) st3
                    = (inl (ReplyError s), st3))
         by (unfold get_answer_resume; rewrite bind_gets, Hf3; reflexivity).
       unfold bind. rewrite HE. cbn [fst snd].
       split; [reflexivity|exact Hold]. }
  1-2: erewrite bind_inr
      by exact (get_answer_resume_return _ _ _ _ _ Hf3 ltac:(by rewrite Hin3) Hc3);
    cbv beta iota; unfold bind; cbn [discard_finish py_eq_status raise fst snd].
  - destruct (bytes_eqb s (b"OK")); cbn; (split; [reflexivity|exact Hold]).
  - split; [reflexivity|exact Hold].
Qed.

Lemma discard_resets_transaction_without_failing_witness :
  in_transaction engine_in_multi = true /\
  trq (snd (discard_scenario (b"+NO" ++ crlf) engine_in_multi)) = Some [] /\
  fst (discard_scenario (b"+NO" ++ crlf) engine_in_multi) = inl AssertionError /\
  futs (snd (discard_scenario (b"+NO" ++ crlf) engine_in_multi)) !! 7%nat = Some Pending.
Proof.
  split; [reflexivity|].
  destruct (discard_resets_transaction_without_failing (b"+NO" ++ crlf) engine_in_multi
              eq_refl) as [Htq [_ [_ HB]]].
  destruct (HB eq_refl eq_refl eq_refl eq_refl (EStatus (b"NO")) ltac:(vm_compute; reflexivity))
    as [Hr Hf].
  split; [exact Htq|]. split; [exact Hr|]. rewrite (Hf 7%nat ltac:(cbn; lia)). reflexivity.
Defined.

(** C10 (amended): [set('hello', 'world')] on an engine outside a
    transaction writes exactly [*3\r\n$3\r\nset\r\n$5\r\nhello\r\n$5\r\nworld\r\n]
    (the command name in lower case, as the code passes it), and once the
    server answers [+OK\r\n] the caller gets [StatusReply('OK')]. *)
Theorem set_hello_world_request_and_reply (st : engine) :
  in_transaction st = false -> in_pubsub st = false ->
  queue st = [] -> buffer st = [] -> dec st = pstate0 ->
  written (snd (redis_set (b"hello") (b"world") st)) =
    written st ++ b"*3" ++ crlf ++ b"$3" ++ crlf ++ b"set" ++ crlf ++
    b"$5" ++ crlf ++ b"hello" ++ crlf ++ b"$5" ++ crlf ++ b"world" ++ crlf /\
  fst (set_scenario (b"hello") (b"world") (b"+OK" ++ crlf) st)
    = inr (GAReturn (VStatus (b"OK"))).
Proof.
  intros Ht Hps Hq Hb Hd.
  assert (Hset : redis_set (b"hello") (b"world") st =
                 query [b"set"; b"hello"; b"world"] false st).
  { cbv [redis_set command_guard bind gets ret]. rewrite Ht. reflexivity. }
  split.
  - rewrite Hset, query_spec. cbn [snd written]. reflexivity.
  - unfold set_scenario. erewrite bind_inr; [|rewrite Hset; apply query_spec].
    cbn [fst snd queue futs next_id pipelined_calls in_pubsub in_transaction trq
      written dec buffer pubsub_replies].
    rewrite Hq, Hb, Hd, Hps, Ht. cbn [app].
    erewrite bind_inr.
    2:{ apply engine_data_received_line with (p := pstate0) (evs := [EStatus (b"OK")]);
        [reflexivity|reflexivity|reflexivity| |].
        - apply dispatch_all_single_flat; [reflexivity|reflexivity|].
          cbn [futs set_dec set_buffer]. by rewrite lookup_insert_eq.
        - reflexivity. }
    rewrite get_answer_resume_return with (v := VStatus (b"OK")).
    + reflexivity.
    + cbn [futs set_futs]. by rewrite lookup_insert_eq.
    + reflexivity.
    + cbn [pipelined_calls set_futs set_queue set_dec set_buffer].
      apply existsb_snoc. cbn [call_id]. by rewrite Nat.eqb_refl.
Qed.

Lemma set_hello_world_request_and_reply_witness :
  in_transaction connection_made_state = false /\
  in_pubsub connection_made_state = false /\
  queue connection_made_state = [] /\ buffer connection_made_state = [] /\
  dec connection_made_state = pstate0 /\
  (written (snd (redis_set (b"hello") (b"world") connection_made_state)) =
     written connection_made_state ++ b"*3" ++ crlf ++ b"$3" ++ crlf ++ b"set" ++
     crlf ++ b"$5" ++ crlf ++ b"hello" ++ crlf ++ b"$5" ++ crlf ++ b"world" ++ crlf /\
   fst (set_scenario (b"hello") (b"world") (b"+OK" ++ crlf) connection_made_state)
     = inr (GAReturn (VStatus (b"OK")))).
Proof.
  do 5 (split; [reflexivity|]).
  apply (set_hello_world_request_and_reply connection_made_state); reflexivity.
Defined.

(** C3 (amended): [connection_lost] fails every future of [_queue] (the
    futures waiting for a reply) with [RedisException('Connection lost...')]
    and empties [_queue]; every other future, among them the detached
    futures stored in [_transaction_response_queue], keeps its state, and
    the transaction queue itself is left as it was. *)
Theorem connection_lost_fails_reply_queue_only (st : engine) :
  NoDup (queue st) -> Forall (fun f => futs st !! f = Some Pending) (queue st) ->
  fst (connection_lost st) = inr tt /\
  queue (snd (connection_lost st)) = [] /\
  trq (snd (connection_lost st)) = trq st /\
  forall g, futs (snd (connection_lost st)) !! g =
    if decide (g ∈ queue st) then Some (Failed ConnectionLostError)
    else futs st !! g.
Proof.
  intros Hnd Hp. unfold connection_lost. rewrite bind_gets.
  destruct (fail_queue_spec (length (queue st)) st Hnd Hp (le_n _)) as [m' [Hrun Hm']].
  rewrite Hrun. cbn [fst snd queue trq futs set_queue set_futs].
  split; [reflexivity|]. split; [reflexivity|]. split; [reflexivity|].
  exact Hm'.
Qed.

Lemma connection_lost_fails_reply_queue_only_witness :
  NoDup (queue engine_multi_waiting) /\
  Forall (fun f => futs engine_multi_waiting !! f = Some Pending)
    (queue engine_multi_waiting) /\
  (fst (connection_lost engine_multi_waiting) = inr tt /\
   queue (snd (connection_lost engine_multi_waiting)) = [] /\
   trq (snd (connection_lost engine_multi_waiting)) = trq engine_multi_waiting /\
   forall g, futs (snd (connection_lost engine_multi_waiting)) !! g =
     if decide (g ∈ queue engine_multi_waiting) then Some (Failed ConnectionLostError)
     else futs engine_multi_waiting !! g).
Proof.
  assert (Hnd : NoDup (queue engine_multi_waiting)) by apply NoDup_singleton.
  assert (Hp : Forall (fun f => futs engine_multi_waiting !! f = Some Pending)
                 (queue engine_multi_waiting))
    by (constructor; [reflexivity|constructor]).
  split; [exact Hnd|]. split; [exact Hp|].
  exact (connection_lost_fails_reply_queue_only engine_multi_waiting Hnd Hp).
Defined.

(* ================================================================== *)
(** * Further properties of the code *)

(** [_send_command( *args)] writes a frame that the module's own decoder
    reads back as [MultiBulkReply(len(args))] followed by every argument,
    in order, as a bulk string, whatever bytes the arguments hold (CRLF
    included), as long as they are valid UTF-8. *)
Theorem send_command_frame_decodes (args : list bytes) (st : engine) :
  Forall (fun a => utf8_ok a = true) args ->
  exists w, written (snd (send_command args st)) = written st ++ w /\
    data_received pstate0 [] w =
    DOk pstate0 [] (EMulti (Z.of_nat (length args)) :: map EBulk args).
Proof.
  intros H. exists (request_bytes args). rewrite send_command_spec.
  split; [by destruct st|].
  unfold request_bytes.
  set (frames := concat _).
  replace (b"*" ++ decimal (length args) ++ crlf ++ frames)
    with (((b"*" ++ decimal (length args)) ++ crlf) ++ frames)
    by (rewrite <- !app_assoc; reflexivity).
  rewrite data_received_app, data_received_line.
  2:{ apply split_crlf_no_cr. constructor; [reflexivity|apply decimal_no_cr]. }
  change (b"*" ++ decimal (length args)) with (x2a :: decimal (length args)).
  unfold decode_line. cbn [in_bulk_reply pstate0 line_received].
  change (byte_is x2a 43) with false. change (byte_is x2a 45) with false.
  change (byte_is x2a 36) with false. change (byte_is x2a 42) with true. cbv iota.
  rewrite py_int_decimal. cbn [dres_prepend app].
  unfold frames. rewrite frames_decode by exact H. reflexivity.
Qed.

Lemma send_command_frame_decodes_witness :
  Forall (fun a => utf8_ok a = true) [b"set"; b"k"; b"a" ++ crlf ++ b"b"] /\
  exists w, written (snd (send_command [b"set"; b"k"; b"a" ++ crlf ++ b"b"]
                           connection_made_state)) = written connection_made_state ++ w /\
    data_received pstate0 [] w =
    DOk pstate0 [] (EMulti (Z.of_nat (length [b"set"; b"k"; b"a" ++ crlf ++ b"b"]))
                    :: map EBulk [b"set"; b"k"; b"a" ++ crlf ++ b"b"]).
Proof.
  assert (H : Forall (fun a => utf8_ok a = true) [b"set"; b"k"; b"a" ++ crlf ++ b"b"])
    by (repeat constructor).
  split; [exact H|]. exact (send_command_frame_decodes _ connection_made_state H).
Defined.

(** An integer reply [:<str(z)>\r\n], the way [_encode_int] writes [z],
    is read back by [_handle_int_reply] as [z], for every integer,
    negative ones included, and leaves nothing in the buffer. *)
Theorem int_reply_roundtrip (p : pstate) (z : Z) :
  in_bulk_reply p = false ->
  data_received p [] (b":" ++ encode_int z ++ crlf) = DOk p [] [EInt z].
Proof.
  intros Hp. rewrite app_assoc, data_received_line.
  2:{ apply split_crlf_no_cr. constructor; [reflexivity|apply encode_int_no_cr]. }
  change (b":" ++ encode_int z) with (x3a :: encode_int z).
  unfold decode_line. rewrite Hp. cbn [line_received].
  change (byte_is x3a 43) with false. change (byte_is x3a 45) with false.
  change (byte_is x3a 36) with false. change (byte_is x3a 42) with false.
  change (byte_is x3a 58) with true. cbv iota.
  by rewrite py_int_encode_int.
Qed.

Lemma int_reply_roundtrip_witness :
  in_bulk_reply pstate0 = false /\
  data_received pstate0 [] (b":" ++ encode_int (-42) ++ crlf) = DOk pstate0 [] [EInt (-42)].
Proof. split; [reflexivity|]. apply int_reply_roundtrip. reflexivity. Defined.

(** A bulk reply [$<len>\r\n<payload>\r\n] is read back as its payload,
    even when the payload holds CRLF (the body is reassembled from the
    lines until the announced length is passed); a payload that is not
    valid UTF-8 makes [data_received] raise [UnicodeDecodeError]. *)
Theorem bulk_reply_roundtrip (a : bytes) :
  data_received pstate0 [] (b"$" ++ encode_int (Z.of_nat (length a)) ++ crlf ++ a ++ crlf) =
  if utf8_ok a then DOk pstate0 [] [EBulk a] else DErr UnicodeDecodeError [].
Proof. rewrite encode_int_of_nat. apply bulk_frame_decodes. Qed.

(** [data_received] never touches the pipelined calls, the pub/sub and
    transaction flags, the transaction queue or what was written to the
    transport; in particular it never changes [in_use]. *)
Theorem data_received_keeps_calls_and_flags (data : bytes) (st : engine) :
  pipelined_calls (snd (engine_data_received data st)) = pipelined_calls st /\
  in_pubsub (snd (engine_data_received data st)) = in_pubsub st /\
  in_transaction (snd (engine_data_received data st)) = in_transaction st /\
  trq (snd (engine_data_received data st)) = trq st /\
  written (snd (engine_data_received data st)) = written st /\
  in_use (snd (engine_data_received data st)) = in_use st.
Proof.
  pose proof (engine_data_received_keeps data st) as H. unfold call_state in H.
  injection H as H1 H2 H3 H4 H5.
  unfold in_use, in_blocking_call. rewrite H1, H2, H3. tauto.
Qed.



(** Pipelining: when the received bytes decode to [k] non-multi-bulk
    replies and the first [k] futures of [_queue] are pending, the i-th
    reply completes the i-th future (a [-] reply as an exception), those
    futures leave the queue, and nothing else changes but the parser
    state, the buffer and those futures. *)
Theorem pipelined_replies_resolve_in_order (data : bytes) (st : engine)
  (p : pstate) (bf : bytes) (evs : list event) (fs q : list nat) :
  data_received (dec st) (buffer st) data = DOk p bf evs ->
  forallb flat evs = true ->
  queue st = fs ++ q -> length fs = length evs -> NoDup fs ->
  Forall (fun f => futs st !! f = Some Pending) fs ->
  exists m', engine_data_received data st =
    (inr tt, set_dec p (set_buffer bf (set_queue q (set_futs m' st)))) /\
    (forall i f ev, fs !! i = Some f -> evs !! i = Some ev ->
                    m' !! f = Some (reply_fstate ev 0)) /\
    (forall g, g ∉ fs -> m' !! g = futs st !! g).
Proof.
  intros Hd Hflat Hq Hl Hnd Hp.
  destruct (dispatch_all_flat_list evs fs q st Hq Hl Hnd Hp Hflat)
    as [m' [Hdisp [Hr Ho]]].
  exists m'. split; [|split; assumption].
  exact (engine_data_received_decode _ _ _ _ _ _ Hd Hdisp).
Qed.

Lemma pipelined_replies_resolve_in_order_witness :
  exists m', engine_data_received (b"-ERR x" ++ crlf ++ b":7" ++ crlf) engine_two_pending =
    (inr tt, set_dec pstate0 (set_buffer [] (set_queue [] (set_futs m' engine_two_pending)))) /\
    (forall i f ev, [3%nat; 5%nat] !! i = Some f -> [EError (b"ERR x"); EInt 7] !! i = Some ev ->
                    m' !! f = Some (reply_fstate ev 0)) /\
    (forall g, g ∉ [3%nat; 5%nat] -> m' !! g = futs engine_two_pending !! g).
Proof.
  apply (pipelined_replies_resolve_in_order _ _ pstate0 [] [EError (b"ERR x"); EInt 7]
           [3%nat; 5%nat] []).
  - reflexivity.
  - reflexivity.
  - reflexivity.
  - reflexivity.
  - repeat constructor; set_solver.
  - repeat constructor.
Defined.

(** A reply that arrives when no future waits in [_queue] (outside
    pub/sub) makes [data_received] raise [IndexError] from
    [self._queue.popleft()], whatever the reply: the bytes received only
    need to complete one reply (status, error, integer, bulk with its
    payload, nil or multi-bulk header), possibly after lines that complete
    none, and even if a later line would make the decoder raise. *)
Theorem unsolicited_reply_raises_IndexError (data : bytes) (st : engine)
  (ev : event) (evs : list event) :
  queue st = [] -> in_pubsub st = false ->
  dres_events (data_received (dec st) (buffer st) data) = ev :: evs ->
  fst (engine_data_received data st) = inl IndexError.
Proof.
  intros Hq Hps Hd. unfold engine_data_received.
  rewrite bind_modify, bind_gets. cbn [buffer set_buffer].
  apply (engine_drain_unsolicited _ _ ev evs); [destruct st; exact Hq|destruct st; exact Hps|].
  destruct st; exact Hd.
Qed.

Lemma unsolicited_reply_raises_IndexError_witness :
  dres_events (data_received (dec connection_made_state) (buffer connection_made_state)
     (b"$2" ++ crlf ++ b"ab" ++ crlf)) = [EBulk (b"ab")] /\
  fst (engine_data_received (b"$2" ++ crlf ++ b"ab" ++ crlf) connection_made_state)
    = inl IndexError.
Proof.
  split; [vm_compute; reflexivity|].
  apply (unsolicited_reply_raises_IndexError _ _ (EBulk (b"ab")) []);
    vm_compute; reflexivity.
Defined.

(** In pub/sub mode a multi-bulk header [*n] completes no waiting future:
    the [MultiBulkReply] goes to [_handle_pubsub_multibulk_reply], and its
    [n] item futures are put, in order, in front of [_queue]; the futures
    created before are left as they were. *)
Theorem pubsub_multibulk_keeps_waiting_futures (n : nat) (st : engine) :
  in_pubsub st = true -> buffer st = [] -> in_bulk_reply (dec st) = false ->
  exists m', engine_data_received (b"*" ++ decimal n ++ crlf) st =
    (inr tt, set_queue (seq (next_id st) n ++ queue st)
       (set_next_id (next_id st + n) (set_futs m'
          (set_pubsub_replies
             (pubsub_replies st ++ [VMulti (Z.of_nat n) (seq (next_id st) n)]) st)))) /\
    forall g, m' !! g = if decide (next_id st <= g < next_id st + n)%nat
                        then Some Pending else futs st !! g.
Proof.
  intros Hps Hb Hbulk.
  destruct (handle_multi_bulk_pubsub (Z.of_nat n) st Hps) as [m' [Hh Hm']].
  rewrite Nat2Z.id in Hh, Hm'. exists m'. split; [|exact Hm'].
  assert (Hdec : data_received (dec st) (buffer st) (b"*" ++ decimal n ++ crlf)
                 = DOk (dec st) [] [EMulti (Z.of_nat n)])
    by (rewrite Hb; apply multi_header_decodes, Hbulk).
  eassert (Hdisp : dispatch_all [EMulti (Z.of_nat n)] st = _).
  { cbn [dispatch_all dispatch]. erewrite bind_inr by exact Hh. reflexivity. }
  rewrite (engine_data_received_decode _ _ _ _ _ _ Hdec Hdisp).
  destruct st; cbn in *; subst. reflexivity.
Qed.

Lemma pubsub_multibulk_keeps_waiting_futures_witness :
  exists m', engine_data_received (b"*" ++ decimal 2 ++ crlf)
               engine_subscribed =
    (inr tt, set_queue (seq 4 2 ++ [3%nat]) (set_next_id 6 (set_futs m'
       (set_pubsub_replies [VMulti 2 (seq 4 2)] engine_subscribed)))) /\
    forall g, m' !! g = if decide (4 <= g < 4 + 2)%nat
                        then Some Pending else futs engine_one_pending !! g.
Proof.
  exact (pubsub_multibulk_keeps_waiting_futures 2 engine_subscribed
           eq_refl eq_refl eq_refl).
Defined.

(** While a blocking command waits for its reply, the protocol stays
    [in_use], whatever bytes arrive: [data_received] does not remove the
    call, only the resumed [_get_answer] does. *)
Theorem blocking_call_keeps_engine_in_use (cmd : bytes) (rest : list bytes)
  (data : bytes) (st : engine) :
  in_use (snd ((query (cmd :: rest) true ;;; engine_data_received data) st)) = true.
Proof.
  unfold bind at 1. rewrite query_spec.
  set (st1 := mkEngine _ _ _ _ _ _ _ _ _ _ _).
  pose proof (engine_data_received_keeps data st1) as H. unfold call_state in H.
  injection H as H1 _ _ _ _.
  destruct (engine_data_received data st1) as [r st2]. cbn [snd] in *.
  unfold in_use, in_blocking_call. rewrite H1. unfold st1. cbn [pipelined_calls].
  rewrite existsb_snoc; reflexivity.
Qed.

(** [_unwatch] never completes normally: outside a transaction it raises
    [RedisException('Not in transaction')]; inside one, [_query] returns
    the detached future (or raises, or is still waiting), and
    [assert result == StatusReply('OK')] on that future raises. *)
Theorem unwatch_never_succeeds (reply : bytes) (st : engine) :
  fst (unwatch_scenario reply st) = inr false \/
  exists e, fst (unwatch_scenario reply st) = inl e.
Proof.
  enough (H : match fst (unwatch_scenario reply st) with
               | inr true => False | _ => True end).
  { destruct (fst (unwatch_scenario reply st)) as [e|[]];
      [right; eexists; reflexivity|contradiction|left; reflexivity]. }
  unfold unwatch_scenario. rewrite bind_gets.
  destruct (in_transaction st) eqn:Ht; cbn [negb]; [|exact I].
  unfold bind at 1. rewrite query_spec. cbn [fst snd].
  set (st1 := mkEngine _ _ _ _ _ _ _ _ _ _ _).
  assert (Ht1 : in_transaction st1 = true) by exact Ht.
  pose proof (keeps_call_state_in_transaction _ (engine_data_received_keeps reply) st1)
    as Hk.
  unfold bind at 1.
  destruct (engine_data_received reply st1) as [[e|[]] st2]; cbn [snd] in Hk;
    [exact I|].
  rewrite Ht1 in Hk.
  pose proof (get_answer_resume_in_transaction None
    {| call_id := next_id st; call_cmd := b"unwatch"; call_blocking := false |}
    (S (next_id st)) st2 Hk) as Hg.
  unfold bind at 1.
  destruct (get_answer_resume false None _ (S (next_id st)) st2) as [[e|g] st3];
    cbn [fst] in Hg |- *; [exact I|].
  destruct g; try contradiction; exact I.
Qed.

(** [multi(keys)] when the server answers every WATCH and the MULTI with
    [+OK]: it returns the transaction, having written [WATCH k] for each
    key in order and then [MULTI]; the protocol is now in a transaction
    with an empty transaction queue, and no call is left pending. *)
Theorem multi_with_ok_replies (keys : list bytes) (st : engine) :
  in_transaction st = false -> in_pubsub st = false -> queue st = [] ->
  buffer st = [] -> in_bulk_reply (dec st) = false ->
  Forall (fun c => (call_id c < next_id st)%nat) (pipelined_calls st) ->
  exists st',
    multi_scenario (Some keys)
      (map (fun _ => b"+OK" ++ crlf) keys ++ [b"+OK" ++ crlf]) st = (inr true, st') /\
    in_transaction st' = true /\ trq st' = Some [] /\ queue st' = [] /\
    pipelined_calls st' = pipelined_calls st /\
    written st' = written st ++ concat (map (fun k => request_bytes [b"watch"; k]) keys)
                  ++ request_bytes [b"multi"].
Proof.
  intros Ht Hps Hq Hb Hbulk Hcs. unfold multi_scenario.
  erewrite bind_inr by (unfold command_guard; rewrite bind_gets, Ht; reflexivity).
  destruct (watch_keys_ok keys [b"+OK" ++ crlf] st Hq Hb Hbulk Hps Ht Hcs)
    as [m [n [Hw Hn]]].
  erewrite bind_inr by exact Hw. cbn [next_reply]. cbv beta iota.
  erewrite bind_inr.
  2:{ apply run_query_ok; try reflexivity; [exact Hbulk|].
      eapply Forall_impl; [exact Hcs|]. cbn. intros c Hc. lia. }
  cbv beta iota. erewrite bind_inr by reflexivity.
  rewrite bind_modify, bind_modify.
  eexists. split; [reflexivity|]. cbn.
  repeat split. by rewrite <- app_assoc.
Qed.

Lemma multi_with_ok_replies_witness :
  exists st',
    multi_scenario (Some [b"k"])
      (map (fun _ => b"+OK" ++ crlf) [b"k"] ++ [b"+OK" ++ crlf]) connection_made_state
      = (inr true, st') /\
    in_transaction st' = true /\ trq st' = Some [] /\ queue st' = [] /\
    pipelined_calls st' = pipelined_calls connection_made_state /\
    written st' = written connection_made_state
                  ++ concat (map (fun k => request_bytes [b"watch"; k]) [b"k"])
                  ++ request_bytes [b"multi"].
Proof.
  apply multi_with_ok_replies; try reflexivity. constructor.
Defined.

(** [multi] sets [_in_transaction] exactly when it returns the
    transaction: a failed WATCH or MULTI (error reply, non-OK status,
    exception) or a reply still awaited leaves the protocol outside any
    transaction. *)
Theorem multi_enters_transaction_iff_returned (keys : option (list bytes))
  (replies : list bytes) (st : engine) :
  in_transaction st = false ->
  (in_transaction (snd (multi_scenario keys replies st)) = true <->
   fst (multi_scenario keys replies st) = inr true).
Proof.
  intros Ht.
  enough (H : match multi_scenario keys replies st with
              | (r, st') => in_transaction st' = true <-> r = inr true end)
    by (destruct (multi_scenario keys replies st); exact H).
  unfold multi_scenario.
  erewrite bind_inr by (unfold command_guard; rewrite bind_gets, Ht; reflexivity).
  set (X := match keys with None => ret (Some replies) | Some ks => watch_keys ks replies end).
  assert (HX : keeps in_transaction X)
    by (unfold X; destruct keys; [apply watch_keys_keeps|apply keeps_ret]).
  specialize (HX st). unfold bind at 1.
  destruct (X st) as [[e|[rs|]] st1]; cbn [snd] in HX; cbv beta iota;
    [rewrite HX, Ht; split; discriminate| |cbn; rewrite HX, Ht; split; discriminate].
  destruct (next_reply rs) as [r rs'].
  pose proof (run_query_keeps [b"multi"] false false r st1) as HR.
  unfold bind at 1.
  destruct (run_query [b"multi"] false false r st1) as [[e|g] st2];
    cbn [snd] in HR; cbv beta iota; [rewrite HR, HX, Ht; split; discriminate|].
  destruct g as [|v|f|pp v]; cbn; try (rewrite HR, HX, Ht; split; discriminate).
  pose proof (discard_finish_keeps v st2) as HD.
  unfold bind at 1.
  destruct (discard_finish v st2) as [[e|[]] st3]; cbn [snd] in HD; cbv beta iota;
    [rewrite HD, HR, HX, Ht; split; discriminate|].
  rewrite bind_modify, bind_modify. cbn. tauto.
Qed.

Lemma multi_enters_transaction_iff_returned_witness :
  in_transaction connection_made_state = false /\
  (in_transaction (snd (multi_scenario None [b"-ERR" ++ crlf] connection_made_state)) = true <->
   fst (multi_scenario None [b"-ERR" ++ crlf] connection_made_state) = inr true).
Proof.
  split; [reflexivity|]. apply multi_enters_transaction_iff_returned. reflexivity.
Defined.

(** [__getattr__] on the pool rotates the protocol list by one place per
    command: after [k] commands the list is rotated by [k] modulo the
    pool size, so after [poolsize] commands it is back in its order. *)
Theorem pool_selection_rotates (e : engine) (rest : list engine) (k : nat) :
  Nat.iter k (fun l => fst (pool_getattr true l)) (e :: rest) =
  skipn (k mod length (e :: rest)) (e :: rest) ++
  firstn (k mod length (e :: rest)) (e :: rest) /\
  Nat.iter (length (e :: rest)) (fun l => fst (pool_getattr true l)) (e :: rest) =
  e :: rest.
Proof.
  split; [apply iter_pool_getattr; discriminate|].
  rewrite iter_pool_getattr by discriminate. rewrite Nat.Div0.mod_same.
  cbn [skipn firstn]. by rewrite app_nil_r.
Qed.

(** Round robin: when no protocol of the pool is in use, the [k]-th
    command (counting from 0) goes to the protocol at position
    [(k + 1) mod poolsize] of the original list. *)
Theorem pool_round_robin_when_free (e : engine) (rest : list engine) (k : nat) :
  Forall (fun p => in_use p = false) (e :: rest) ->
  snd (pool_getattr true (Nat.iter k (fun l => fst (pool_getattr true l)) (e :: rest))) =
  inr (nth (S k mod length (e :: rest)) (e :: rest) e).
Proof.
  intros Hfree. set (l := e :: rest).
  assert (Hn : length l <> 0%nat) by discriminate.
  rewrite (iter_pool_getattr l k) by discriminate.
  unfold pool_getattr, get_free_protocol. cbn [negb].
  rewrite shuffle_rotate by (apply Nat.mod_upper_bound, Hn).
  assert (Hs : (S k mod length l = S (k mod length l) mod length l)%nat).
  { rewrite <- (Nat.add_1_r k), <- (Nat.add_1_r (k mod length l)).
    symmetry. apply Nat.Div0.add_mod_idemp_l. }
  pose proof (Nat.mod_upper_bound k (length l) Hn).
  set (j := S (k mod length l)) in *.
  assert (Hl : skipn j l ++ firstn j l = skipn (j mod length l) l ++ firstn (j mod length l) l).
  { destruct (decide (j = length l)) as [E|E].
    - rewrite E, Nat.Div0.mod_same, drop_all, (take_ge l (length l)) by lia.
      by rewrite drop_0, take_0, app_nil_r.
    - by rewrite (Nat.mod_small j (length l)) by lia. }
  rewrite Hl, Hs.
  assert (Hj : (j mod length l < length l)%nat) by (apply Nat.mod_upper_bound, Hn).
  destruct (lookup_lt_is_Some_2 l _ Hj) as [x Hx].
  rewrite (drop_S l x _ Hx). cbn [List.find].
  assert (Hxf : in_use x = false).
  { exact (Forall_lookup_1 _ _ _ _ Hfree Hx). }
  cbn [app List.find snd]. rewrite Hxf. cbn [negb]. f_equal. symmetry.
  apply nth_lookup_Some. exact Hx.
Qed.

Lemma pool_round_robin_when_free_witness :
  Forall (fun p => in_use p = false)
    [connection_made_state; engine_one_pending; engine_two_pending] /\
  snd (pool_getattr true (Nat.iter 4 (fun l => fst (pool_getattr true l))
    [connection_made_state; engine_one_pending; engine_two_pending])) =
  inr (nth (S 4 mod length [connection_made_state; engine_one_pending; engine_two_pending])
         [connection_made_state; engine_one_pending; engine_two_pending]
         connection_made_state).
Proof.
  assert (H : Forall (fun p => in_use p = false)
                [connection_made_state; engine_one_pending; engine_two_pending])
    by (repeat constructor).
  split; [exact H|]. exact (pool_round_robin_when_free _ _ 4 H).
Defined.

(** [connections_in_use] counts the protocols that are in use; [__getattr__]
    raises "All connection in the pool are in use" exactly when that count
    is the pool size. *)
Theorem pool_exhausted_iff_all_connections_in_use (l : list engine) :
  snd (pool_getattr true l) = inl PoolInUseError <-> connections_in_use l = length l.
Proof.
  unfold pool_getattr, get_free_protocol, connections_in_use. cbn [negb].
  transitivity (Forall (fun p => in_use p = true) l).
  - destruct (List.find (fun p => negb (in_use p)) (shuffle_protocols l)) as [p|] eqn:E.
    + cbn. split; [discriminate|]. intros HF.
      apply find_some in E as [Hin Hfree]. apply (proj1 (In_shuffle_protocols l p)) in Hin.
      rewrite List.Forall_forall in HF. rewrite (HF p Hin) in Hfree. discriminate.
    + cbn. split; [intros _|reflexivity]. apply List.Forall_forall. intros p Hp.
      apply (proj2 (In_shuffle_protocols l p)), (find_none _ _ E) in Hp.
      by destruct (in_use p).
  - induction l as [|p l IH]; [split; [reflexivity|constructor]|].
    rewrite List.Forall_cons_iff, IH.
    destruct (in_use p) eqn:Hp.
    + rewrite filter_cons_True by (rewrite Hp; exact I). cbn. lia.
    + rewrite filter_cons_False by (rewrite Hp; cbn; tauto). cbn.
      pose proof (length_filter (fun p => in_use p) l). split; [intros [? _]; discriminate|lia].
Qed.

(** [transaction.exec()] when every queued command was queued without a
    post-processor ([post_process_func] is [None]) and the server answers
    EXEC with a multi-bulk reply carrying one plain (non-multi-bulk,
    non-error) item per queued command: the future of the [j]-th queued
    command gets the [j]-th item,
    each queued command's call leaves [_pipelined_calls] (and so does
    EXEC's own), and the protocol leaves the transaction with an empty
    transaction queue. *)
Theorem exec_resolves_queued_futures_in_order (ents : list (nat * call * value))
  (evs : list event) (reply : bytes) (st : engine) :
  in_transaction st = true -> in_pubsub st = false -> queue st = [] ->
  buffer st = [] -> dec st = pstate0 ->
  trq st = Some (map (fun e => (e.1.1, None, e.1.2)) ents) ->
  data_received pstate0 [] reply =
    DOk pstate0 [] (EMulti (Z.of_nat (length ents)) :: evs) ->
  Forall2 (fun ev e => flat ev = true /\ reply_fstate ev 0 = Done e.2) evs ents ->
  NoDup (map (fun e => e.1.1) ents) ->
  Forall (fun e => (e.1.1 < next_id st)%nat /\ futs st !! e.1.1 = Some Pending) ents ->
  NoDup (map (fun e => call_id e.1.2) ents) ->
  Forall (fun e => e.1.2 ∈ pipelined_calls st) ents ->
  Forall (fun c => (call_id c < next_id st)%nat) (pipelined_calls st) ->
  exists st', exec_scenario reply st = (inr (Some ExecDone), st') /\
    in_transaction st' = false /\ trq st' = Some [] /\ queue st' = [] /\
    (forall e, e ∈ ents -> futs st' !! e.1.1 = Some (Done e.2)) /\
    (forall c', c' ∈ pipelined_calls st' <->
       c' ∈ pipelined_calls st /\ Forall (fun e => call_id e.1.2 <> call_id c') ents).
Proof.
  intros Ht Hps Hq Hb Hdec0 Htrq Hd H2 Hnd Hp Hndc Hc Hcs.
  set (n0 := next_id st).
  set (K := length ents).
  assert (HK : length evs = K) by (exact (Forall2_length _ _ _ H2)).
  unfold exec_scenario.
  erewrite bind_inr by (apply exec_start_spec; exact Ht). cbv beta iota.
  rewrite query_spec. cbn [snd].
  set (cexec := {| call_id := next_id (set_trq None st); call_cmd := b"exec";
                   call_blocking := false |}).
  set (st1 := mkEngine _ _ _ _ _ _ _ _ _ _ _).
  (* the EXEC reply: the multi-bulk header completes EXEC's future, the
     items complete the children *)
  destruct (handle_multi_bulk_plain (Z.of_nat K) st1 (S n0) [])
    as [m' [Hh Hm']]; [exact Hps|by unfold st1; cbn; rewrite Hq|
                       by unfold st1; cbn; rewrite lookup_insert_eq|].
  rewrite Nat2Z.id in Hh, Hm'.
  set (n := next_id st1) in *.
  assert (Hnv : n = S (S n0)) by reflexivity.
  assert (Hn0v : n0 = next_id st) by reflexivity.
  set (st1a := set_queue _ _) in Hh.
  destruct (dispatch_all_flat evs n [] st1a) as [m'' [Hfl [Hr Ho]]].
  { unfold st1a; cbn. rewrite HK. reflexivity. }
  { intros i Hi. rewrite HK in Hi. unfold st1a; cbn. rewrite Hm'. case_decide; [reflexivity|lia]. }
  { apply forallb_forall. intros ev Hev. apply list_elem_of_In, list_elem_of_lookup_1 in Hev as [j Hj].
    destruct (Forall2_lookup_l _ _ _ j ev H2 Hj) as [e [_ [Hfe _]]]. exact Hfe. }
  assert (Hdisp : dispatch_all (EMulti (Z.of_nat K) :: evs) st1 =
                  (inr tt, set_queue [] (set_futs m'' st1a))).
  { cbn [dispatch_all dispatch]. erewrite bind_inr by exact Hh. exact Hfl. }
  assert (Hdec : data_received (dec st1) (buffer st1) reply =
                 DOk pstate0 [] (EMulti (Z.of_nat K) :: evs))
    by (unfold st1; cbn; rewrite Hdec0, Hb; exact Hd).
  erewrite bind_inr by exact (engine_data_received_decode _ _ _ _ _ _ Hdec Hdisp).
  set (st3 := dec_buffer_update _ _ _).
  (* [_get_answer] of EXEC, with [_bypass=True] *)
  assert (Hn0 : (S n0 < n)%nat) by (unfold n, st1; cbn; lia).
  erewrite bind_inr.
  2:{ apply (get_answer_resume_return _ _ _ (VMulti (Z.of_nat K) (seq n K))).
      - unfold st3; cbn. rewrite Ho by lia. unfold st1a; cbn. rewrite Hm'.
        case_decide; [lia|]. unfold st1; cbn. by rewrite lookup_insert_eq.
      - unfold st3, st1; cbn. by rewrite Ht.
      - unfold st3, st1a, st1; cbn [pipelined_calls dec_buffer_update set_dec set_buffer
          set_queue set_futs set_next_id]. apply existsb_snoc. apply Nat.eqb_refl. }
  cbv beta iota.
  set (st4 := set_calls _ st3).
  assert (Hcalls4 : pipelined_calls st4 = pipelined_calls st).
  { unfold st4; cbn [pipelined_calls set_calls].
    apply (filter_fresh_call _ n0); [exact Hcs|reflexivity]. }
  (* the [for f in multi_bulk_reply] loop *)
  destruct (exec_loop_spec n (map snd ents) ents 0 st4)
    as [m [cs [Hl [Hdone [Hother Hcs']]]]].
  { intros t w Hw. rewrite lookup_map in Hw.
    destruct (ents !! t) as [e|] eqn:Et; [|discriminate]. injection Hw as <-.
    destruct (Forall2_lookup_r _ _ _ t e H2 Et) as [ev [Hev [_ Hre]]].
    rewrite <- Hre, <- (Hr t ev Hev). reflexivity. }
  { intros j e He. cbn. rewrite lookup_map, He. reflexivity. }
  { exact Hnd. }
  { apply Forall_forall. intros e He.
    destruct (proj1 (Forall_forall _ _) Hp e He) as [H1 H3].
    split; [unfold n, st1; cbn; lia|].
    unfold st4, st3; cbn. rewrite Ho by lia. unfold st1a; cbn. rewrite Hm'.
    case_decide; [lia|]. unfold st1; cbn.
    rewrite lookup_insert_ne by lia. rewrite lookup_insert_ne by lia. exact H3. }
  { exact Hndc. }
  { rewrite Hcalls4. exact Hc. }
  rewrite length_map in Hl.
  erewrite bind_inr.
  2:{ unfold exec_after. rewrite Nat2Z.id, Htrq. erewrite bind_inr by exact Hl.
      cbv beta iota. rewrite bind_modify, bind_modify. reflexivity. }
  eexists. split; [reflexivity|]. cbn.
  split; [reflexivity|]. split; [reflexivity|]. split; [reflexivity|].
  split; [exact Hdone|]. intros c'. rewrite Hcs', Hcalls4. tauto.
Qed.

Lemma exec_resolves_queued_futures_in_order_witness :
  exists st', exec_scenario (b"*" ++ decimal 1 ++ crlf ++ b"+OK" ++ crlf) engine_in_multi
    = (inr (Some ExecDone), st') /\
    in_transaction st' = false /\ trq st' = Some [] /\ queue st' = [] /\
    (forall e, e ∈ [(7%nat, call_set6, VStatus (b"OK"))] -> futs st' !! e.1.1 = Some (Done e.2)) /\
    (forall c', c' ∈ pipelined_calls st' <->
       c' ∈ pipelined_calls engine_in_multi /\
       Forall (fun e => call_id e.1.2 <> call_id c') [(7%nat, call_set6, VStatus (b"OK"))]).
Proof.
  apply (exec_resolves_queued_futures_in_order _ [EStatus (b"OK")]).
  - reflexivity.
  - reflexivity.
  - reflexivity.
  - reflexivity.
  - reflexivity.
  - reflexivity.
  - vm_compute. reflexivity.
  - constructor; [split; reflexivity|constructor].
  - constructor; [set_solver|constructor].
  - constructor; [split; [cbn; lia|reflexivity]|constructor].
  - constructor; [set_solver|constructor].
  - constructor; [apply list_elem_of_In; left; reflexivity|constructor].
  - constructor; [cbn; lia|constructor].
Defined.
